(** * Lua extension host and zip access layer (modules/misc/lua/extension.c)

    A shallow embedding of the functions of [extension.c] (which also
    carries the text of [zipaccess.c]) and the properties established
    about them.  Part I holds the definitions, Part II the theorems. *)

From Stdlib Require Import ZArith String Ascii Bool Lia.
From stdpp Require Import base list.

Open Scope string_scope.
Open Scope Z_scope.

(* ===================================================================== *)
(** * Part I.  Definitions                                                *)
(* ===================================================================== *)

(** ** Result codes (vlc_common.h) *)

Inductive vlc_ret : Type :=
| VLC_SUCCESS
| VLC_EGENERIC
| VLC_ENOMEM.

(* --------------------------------------------------------------------- *)
(** ** C strings                                                          *)
(* --------------------------------------------------------------------- *)

(** A C string is the run of bytes before the first NUL.  [c_str] gives
    the string a buffer denotes once a NUL byte may have been stored in
    the middle of it. *)
Fixpoint c_str (buf : string) : string :=
  match buf with
  | EmptyString => EmptyString
  | String c rest =>
      if Ascii.eqb c zero then EmptyString else String c (c_str rest)
  end.

Fixpoint str_take (n : nat) (s : string) : string :=
  match n, s with
  | S n', String c rest => String c (str_take n' rest)
  | _, _ => EmptyString
  end.

Fixpoint str_drop (n : nat) (s : string) : string :=
  match n, s with
  | S n', String _ rest => str_drop n' rest
  | _, _ => s
  end.

(** Whether [needle] is found at the very start of [haystack]. *)
Fixpoint str_prefix (needle haystack : string) : bool :=
  match needle, haystack with
  | EmptyString, _ => true
  | String a needle', String b haystack' =>
      Ascii.eqb a b && str_prefix needle' haystack'
  | _, _ => false
  end.

(** [strstr haystack needle]: offset of the first occurrence of [needle],
    [None] for the NULL result. *)
Fixpoint strstr (haystack needle : string) : option nat :=
  if str_prefix needle haystack then Some O
  else match haystack with
       | EmptyString => None
       | String _ rest => option_map S (strstr rest needle)
       end.

(* --------------------------------------------------------------------- *)
(** ** sscanf( s, "%02x", &i_value )                                      *)
(* --------------------------------------------------------------------- *)

(** The three results [sscanf] can give for one conversion: the item was
    converted (returns 1), a matching failure (returns 0), or an input
    failure before any conversion (returns EOF, which is negative). *)
Inductive sscanf_result : Type :=
| Matched (v : Z)
| MatchFailure
| InputFailure.

Definition isspace (c : ascii) : bool :=
  let n := N_of_ascii c in
  (n =? 32)%N || ((9 <=? n)%N && (n <=? 13)%N).

Definition hex_digit (c : ascii) : option Z :=
  let n := Z.of_N (N_of_ascii c) in
  if (48 <=? n) && (n <=? 57) then Some (n - 48)
  else if (97 <=? n) && (n <=? 102) then Some (n - 87)
  else if (65 <=? n) && (n <=? 70) then Some (n - 55)
  else None.

Fixpoint skip_space (s : string) : string :=
  match s with
  | String c rest => if isspace c then skip_space rest else s
  | EmptyString => EmptyString
  end.

(** [sscanf( s, "%02x", &i_value )]: the [x] conversion skips leading
    white space, then reads at most two characters (the field width) of
    an optionally signed hexadecimal integer.  An item that is only a
    sign is a matching failure; the end of the string before any item is
    an input failure.  A leading [0x] uses up the field width: as the GNU
    C library does, the conversion then stores the value of its [0] and
    counts as matched. *)
Definition sscanf_02x (s : string) : sscanf_result :=
  match skip_space s with
  | EmptyString => InputFailure
  | String c1 rest =>
      if Ascii.eqb c1 "+"%char || Ascii.eqb c1 "-"%char then
        match rest with
        | String c2 _ =>
            match hex_digit c2 with
            | Some d => Matched (if Ascii.eqb c1 "-"%char then - d else d)
            | None => MatchFailure
            end
        | EmptyString => MatchFailure
        end
      else
        match hex_digit c1 with
        | None => MatchFailure
        | Some d1 =>
            match rest with
            | String c2 _ =>
                match hex_digit c2 with
                | Some d2 => Matched (16 * d1 + d2)
                | None => Matched d1
                end
            | EmptyString => Matched d1
            end
        end
  end.

(** [(char) i_value]: the low eight bits. *)
Definition char_of_int (v : Z) : ascii :=
  ascii_of_N (Z.to_N (v mod 256)).

(* --------------------------------------------------------------------- *)
(** ** unescapeXml (zipaccess.c)                                          *)
(* --------------------------------------------------------------------- *)

(** What a call of [unescapeXml] comes to: the decoded buffer, the NULL
    result, or behaviour the C standard leaves undefined (the read of
    [i_value] that [sscanf] never stored, or [psz_iter] stepping past the
    terminating NUL).  Allocation is taken to succeed. *)
Inductive unescaped : Type :=
| Unescaped (buf : string)
| UnescapeNull
| UnescapeUB.

Definition unescaped_cons (c : ascii) (r : unescaped) : unescaped :=
  match r with
  | Unescaped buf => Unescaped (String c buf)
  | other => other
  end.

Definition unescaped_app (buf : string) (r : unescaped) : unescaped :=
  match r with
  | Unescaped rest => Unescaped (buf ++ rest)
  | other => other
  end.

Section Unescape.

(** [isAllowedChar] is declared in zip.h. *)
Variable isAllowedChar : ascii -> bool.

(** The body of the [for] loop, [s] being the text at [psz_iter].  On a
    ['?'] the pointer is advanced once before [sscanf], once after the
    store and once more by the loop header, whatever [sscanf] read;
    [!sscanf(...)] holds only for the result 0. *)
Fixpoint unescapeXml_loop (s : string) : unescaped :=
  match s with
  | EmptyString => Unescaped EmptyString
  | String c rest =>
      if Ascii.eqb c "?"%char then
        match sscanf_02x rest with
        | MatchFailure => UnescapeNull
        | InputFailure => UnescapeUB
        | Matched v =>
            match rest with
            | String _ (String _ rest') =>
                unescaped_cons (char_of_int v) (unescapeXml_loop rest')
            | _ => UnescapeUB
            end
        end
      else if isAllowedChar c then
        unescaped_cons c (unescapeXml_loop rest)
      else UnescapeNull
  end.

Definition unescapeXml (psz_text : string) : unescaped :=
  match unescapeXml_loop psz_text with
  | Unescaped buf => Unescaped (c_str buf)
  | other => other
  end.

End Unescape.

(* --------------------------------------------------------------------- *)
(** ** AccessOpen (zipaccess.c)                                           *)
(* --------------------------------------------------------------------- *)

(** The calls [AccessOpen] makes into the unzip library, in order. *)
Inductive unz_call : Type :=
| UnzOpen2 (path : string)
| UnzLocateFile (name : string)
| UnzOpenCurrentFile
| UnzCloseCurrentFile
| UnzClose.

(** What [AccessOpen] comes to: its return value with the library calls
    made, or undefined behaviour inherited from [unescapeXml]. *)
Inductive access_open : Type :=
| AccessOpenRet (i_ret : vlc_ret) (calls : list unz_call)
| AccessOpenUB.

Section AccessOpen.

Variable isAllowedChar : ascii -> bool.

(** [ZIP_SEP] is a macro of zip.h; [ZIP_SEP_LEN] is its length. *)
Variable ZIP_SEP : string.
Definition ZIP_SEP_LEN : nat := String.length ZIP_SEP.

(** The unzip library: [unzOpen2] gives a handle or NULL; the other two
    answer [true] for [UNZ_OK]. *)
Variable unzFile : Type.
Variable unzOpen2 : string -> option unzFile.
Variable unzLocateFile : unzFile -> string -> bool.
Variable unzOpenCurrentFile : unzFile -> bool.

(** [unescapeXml( p )], and [strdup( p )] when that gave NULL: the
    pattern used for both halves of the MRL.  [None] stands for the
    undefined behaviour of [unescapeXml]. *)
Definition unescape_or_dup (p : string) : option string :=
  match unescapeXml isAllowedChar p with
  | Unescaped s => Some s
  | UnescapeNull => Some p
  | UnescapeUB => None
  end.

(** "Split the MRL": [psz_path] cut at the first separator, the text
    before it and the text [ZIP_SEP_LEN] bytes after it. *)
Definition split_mrl (psz_location : string) : option (string * string) :=
  match strstr psz_location ZIP_SEP with
  | None => None
  | Some sep =>
      Some (str_take sep psz_location,
            str_drop (sep + ZIP_SEP_LEN) psz_location)
  end.

Definition AccessOpen (psz_location : string) : access_open :=
  match split_mrl psz_location with
  | None => AccessOpenRet VLC_EGENERIC []
  | Some (psz_path, psz_inner) =>
      match unescape_or_dup psz_path with
      | None => AccessOpenUB
      | Some psz_pathToZip =>
          match unescape_or_dup psz_inner with
          | None => AccessOpenUB
          | Some psz_fileInzip =>
              match unzOpen2 psz_pathToZip with
              | None =>
                  AccessOpenRet VLC_EGENERIC [UnzOpen2 psz_pathToZip]
              | Some zipFile =>
                  if negb (unzLocateFile zipFile psz_fileInzip) then
                    AccessOpenRet VLC_EGENERIC
                      [UnzOpen2 psz_pathToZip; UnzLocateFile psz_fileInzip;
                       UnzCloseCurrentFile; UnzClose]
                  else if negb (unzOpenCurrentFile zipFile) then
                    AccessOpenRet VLC_EGENERIC
                      [UnzOpen2 psz_pathToZip; UnzLocateFile psz_fileInzip;
                       UnzOpenCurrentFile; UnzCloseCurrentFile; UnzClose]
                  else
                    AccessOpenRet VLC_SUCCESS
                      [UnzOpen2 psz_pathToZip; UnzLocateFile psz_fileInzip;
                       UnzOpenCurrentFile]
              end
          end
      end
  end.

End AccessOpen.

(* --------------------------------------------------------------------- *)
(** ** ZipIO_Seek (zipaccess.c)                                           *)
(* --------------------------------------------------------------------- *)

(** Conversion to [int64_t]: the value modulo 2^64 in [-2^63, 2^63). *)
Definition to_int64 (z : Z) : Z := (z + 2 ^ 63) mod 2 ^ 64 - 2 ^ 63.

(** [origin] values of stdio.h. *)
Definition SEEK_SET : Z := 0.
Definition SEEK_CUR : Z := 1.
Definition SEEK_END : Z := 2.

Section ZipIO.

(** The stream layer (vlc_stream.h): position, size, and a seek that
    gives its result code with the stream it leaves. *)
Variable stream_t : Type.
Variable vlc_stream_Tell : stream_t -> Z.
Variable stream_Size : stream_t -> Z.
Variable vlc_stream_Seek : stream_t -> Z -> vlc_ret * stream_t.

(** Returns the [long] result and the stream afterwards.  [offset] is
    the [uLong] argument; the result of [vlc_stream_Seek] is dropped. *)
Definition ZipIO_Seek (stream : stream_t) (offset : Z) (origin : Z)
  : Z * stream_t :=
  let pos := to_int64 offset in
  let seek_to (pos : Z) :=
    if pos <? 0 then (-1, stream)
    else (0, snd (vlc_stream_Seek stream pos)) in
  if origin =? SEEK_CUR then
    seek_to (to_int64 (pos + vlc_stream_Tell stream))
  else if origin =? SEEK_SET then
    seek_to pos
  else if origin =? SEEK_END then
    seek_to (to_int64 (pos + stream_Size stream))
  else (-1, stream).

End ZipIO.

(* --------------------------------------------------------------------- *)
(** ** The running lock: LockExtension / UnlockExtension (extension.c)    *)
(* --------------------------------------------------------------------- *)

(** The running lock as the calling thread sees it. *)
Inductive mutex : Type :=
| Unlocked
| LockedByCaller
| LockedByOther.

(** The part of [extension_sys_t] that [LockExtension] touches. *)
Record ext_sync : Type := {
  b_exiting : bool;
  running_lock : mutex
}.

Definition set_lock (m : mutex) (s : ext_sync) : ext_sync :=
  {| b_exiting := b_exiting s; running_lock := m |}.

Definition set_exiting (b : bool) (s : ext_sync) : ext_sync :=
  {| b_exiting := b; running_lock := running_lock s |}.

(** [vlc_mutex_lock] succeeds only on a free mutex; [None] stands for the
    caller staying blocked. *)
Definition vlc_mutex_lock (s : ext_sync) : option ext_sync :=
  match running_lock s with
  | Unlocked => Some (set_lock LockedByCaller s)
  | _ => None
  end.

Definition vlc_mutex_unlock (s : ext_sync) : ext_sync :=
  set_lock Unlocked s.

(** Program points of [LockExtension]: before the first test of
    [b_exiting], at [vlc_mutex_lock], before the second test, returned. *)
Inductive lock_pc : Type :=
| LockEntry
| LockAcquire
| LockRecheck
| LockReturned (ok : bool).

(** One step of the calling thread inside [LockExtension]. *)
Definition LockExtension_step (pc : lock_pc) (s : ext_sync)
  : option (lock_pc * ext_sync) :=
  match pc with
  | LockEntry =>
      if b_exiting s then Some (LockReturned false, s)
      else Some (LockAcquire, s)
  | LockAcquire =>
      match vlc_mutex_lock s with
      | Some s' => Some (LockRecheck, s')
      | None => None
      end
  | LockRecheck =>
      if b_exiting s then Some (LockReturned false, vlc_mutex_unlock s)
      else Some (LockReturned true, s)
  | LockReturned _ => None
  end.

(** What the other threads can do to the same extension. *)
Inductive env_action : Type :=
| EnvSetExiting (b : bool)
| EnvLock
| EnvUnlock.

Definition env_step (a : env_action) (s : ext_sync) : ext_sync :=
  match a with
  | EnvSetExiting b => set_exiting b s
  | EnvLock =>
      match running_lock s with
      | Unlocked => set_lock LockedByOther s
      | _ => s
      end
  | EnvUnlock =>
      match running_lock s with
      | LockedByOther => set_lock Unlocked s
      | _ => s
      end
  end.

(** A schedule interleaves steps of the caller with steps of the others. *)
Inductive slot : Type :=
| Caller
| Other (a : env_action).

(** A call of [LockExtension] in progress: where the caller is, the
    shared state, and the values of [b_exiting] it has read so far. *)
Record lock_call : Type := {
  pc : lock_pc;
  shared : ext_sync;
  seen : list bool
}.

Definition reads_flag (p : lock_pc) : bool :=
  match p with
  | LockEntry | LockRecheck => true
  | _ => false
  end.

Definition sched_step (c : lock_call) (sl : slot) : lock_call :=
  match sl with
  | Other a =>
      {| pc := pc c; shared := env_step a (shared c); seen := seen c |}
  | Caller =>
      match LockExtension_step (pc c) (shared c) with
      | Some (pc', s') =>
          {| pc := pc'; shared := s';
             seen := if reads_flag (pc c)
                     then seen c ++ [b_exiting (shared c)]
                     else seen c |}
      | None => c
      end
  end.

Definition run_schedule (sched : list slot) (c : lock_call) : lock_call :=
  fold_left sched_step sched c.

Definition enter_lock (s : ext_sync) : lock_call :=
  {| pc := LockEntry; shared := s; seen := [] |}.

(** What holds of a call in progress, by program point: the flag values
    read so far and who holds the running lock. *)
Definition lock_inv (c : lock_call) : Prop :=
  match pc c with
  | LockEntry => seen c = [] /\ running_lock (shared c) <> LockedByCaller
  | LockAcquire =>
      seen c = [false] /\ running_lock (shared c) <> LockedByCaller
  | LockRecheck =>
      seen c = [false] /\ running_lock (shared c) = LockedByCaller
  | LockReturned true =>
      seen c = [false; false] /\ running_lock (shared c) = LockedByCaller
  | LockReturned false =>
      (seen c = [true] \/ seen c = [false; true])
      /\ running_lock (shared c) <> LockedByCaller
  end.

(** [LockExtension] run by a caller that no other thread interrupts:
    [None] when it stays blocked on the mutex. *)
Fixpoint LockExtension_run (fuel : nat) (p : lock_pc) (s : ext_sync)
  : option (bool * ext_sync) :=
  match p with
  | LockReturned ok => Some (ok, s)
  | _ =>
      match fuel with
      | O => None
      | S fuel' =>
          match LockExtension_step p s with
          | Some (p', s') => LockExtension_run fuel' p' s'
          | None => None
          end
      end
  end.

Definition LockExtension (s : ext_sync) : option (bool * ext_sync) :=
  LockExtension_run 3 LockEntry s.

Definition UnlockExtension (s : ext_sync) : ext_sync :=
  vlc_mutex_unlock s.

(* --------------------------------------------------------------------- *)
(** ** The Lua interpreter as the extension code uses it                  *)
(* --------------------------------------------------------------------- *)

(** Lua values.  A number stands for the [lua_Integer] that
    [lua_tointeger] gives for it; a table carries the length
    [lua_objlen] reports and its pairs in the order [lua_next] yields
    them. *)
#[warnings="-register-all"]
Inductive lua_value : Type :=
| LNil
| LBoolean (b : bool)
| LNumber (n : Z)
| LString (s : string)
| LFunction (f : nat)
| LTable (len : nat) (entries : list (lua_value * lua_value)).

(** The interpreter library.  [luaL_newstate] is [None] for NULL;
    [register_libs] stands for [luaL_openlibs], [luaL_register] and the
    [luaopen_*] calls of [GetLuaState] (its flag tells whether the part
    under [if( p_ext )] runs); [luaL_dofile] answers [true] on an error;
    [lua_pcall] gives the single result, or [None] when the call raised.
    The last two fields are Lua's coercions between strings and
    numbers. *)
Record lua_machine : Type := {
  lua_State : Type;
  luaL_newstate : option lua_State;
  register_libs : bool -> lua_State -> lua_State;
  luaopen_dialog : lua_State -> lua_State;
  luaL_dofile : lua_State -> string -> bool * lua_State;
  lua_getglobal : lua_State -> string -> lua_value;
  lua_pcall : lua_State -> lua_value -> list lua_value
              -> option lua_value * lua_State;
  lua_number2str : Z -> string;
  lua_str2number : string -> option Z
}.

(** Calls into the interpreter, as they happen. *)
Inductive lua_event : Type :=
| LuaNewState
| LuaDoFile (file : string)
| LuaOpenDialog
| LuaGetGlobal (name : string)
| LuaPCall (f : lua_value) (args : list lua_value)
| LuaClose.

Definition lua_isfunction (v : lua_value) : bool :=
  match v with LFunction _ => true | _ => false end.

Definition lua_istable (v : lua_value) : bool :=
  match v with LTable _ _ => true | _ => false end.

Definition lua_isstring (v : lua_value) : bool :=
  match v with LString _ | LNumber _ => true | _ => false end.

Definition lua_objlen (v : lua_value) : nat :=
  match v with LTable len _ => len | _ => O end.

Definition lua_entries (v : lua_value) : list (lua_value * lua_value) :=
  match v with LTable _ entries => entries | _ => [] end.

(** [lua_getfield] on a table without metatable. *)
Fixpoint lua_rawfield (entries : list (lua_value * lua_value)) (k : string)
  : lua_value :=
  match entries with
  | [] => LNil
  | (LString k', v) :: rest =>
      if String.eqb k' k then v else lua_rawfield rest k
  | _ :: rest => lua_rawfield rest k
  end.

Definition lua_getfield (t : lua_value) (k : string) : lua_value :=
  lua_rawfield (lua_entries t) k.

Section LuaCoercions.

Variable M : lua_machine.

Definition lua_isnumber (v : lua_value) : bool :=
  match v with
  | LNumber _ => true
  | LString s =>
      match lua_str2number M s with Some _ => true | None => false end
  | _ => false
  end.

(** [None]: the function raises a Lua error.  The function returns a
    [const char *]: what [strcmp] and [strdup] see of a Lua string is its
    text up to the first NUL. *)
Definition luaL_checkstring (v : lua_value) : option string :=
  match v with
  | LString s => Some (c_str s)
  | LNumber n => Some (c_str (lua_number2str M n))
  | _ => None
  end.

Definition luaL_checkinteger (v : lua_value) : option Z :=
  match v with
  | LNumber n => Some n
  | LString s => lua_str2number M s
  | _ => None
  end.

End LuaCoercions.

(* --------------------------------------------------------------------- *)
(** ** Extensions and their capabilities (extension.c)                    *)
(* --------------------------------------------------------------------- *)

Definition EXT_HAS_MENU : Z := Z.shiftl 1 0.
Definition EXT_TRIGGER_ONLY : Z := Z.shiftl 1 1.
Definition EXT_INPUT_LISTENER : Z := Z.shiftl 1 2.

Definition ppsz_capabilities : list string :=
  ["menu"; "trigger"; "input-listener"].

(** The [for] loop over [ppsz_capabilities]: the index of the first
    entry equal to [psz_cap], counting from [i_cap]. *)
Fixpoint find_capability (table : list string) (i_cap : nat)
  (psz_cap : string) : option nat :=
  match table with
  | [] => None
  | iter :: rest =>
      if String.eqb iter psz_cap then Some i_cap
      else find_capability rest (S i_cap) psz_cap
  end.

Record extension (M : lua_machine) : Type := {
  psz_name : string;
  psz_title : option string;
  psz_author : option string;
  psz_description : option string;
  psz_url : option string;
  psz_version : option string;
  i_capabilities : Z;
  L : option (lua_State M);
  p_sync : ext_sync
}.

Arguments psz_name {M} _.
Arguments psz_title {M} _.
Arguments psz_author {M} _.
Arguments psz_description {M} _.
Arguments psz_url {M} _.
Arguments psz_version {M} _.
Arguments i_capabilities {M} _.
Arguments L {M} _.
Arguments p_sync {M} _.

(** The manager: the known extensions in scan order and the names of
    the activated ones. *)
Record extensions_manager (M : lua_machine) : Type := {
  extensions : list (extension M);
  activated_extensions : list string
}.

Arguments extensions {M} _.
Arguments activated_extensions {M} _.

(** Modelled from the spec: [IsActivated] lives in extension_thread.c,
    which is not part of the sources at hand; the manager's active-set is
    the subset of the catalog currently activated, so the test is
    membership of the extension (by name) in that set. *)
Definition IsActivated {M} (p_mgr : extensions_manager M)
  (p_ext : extension M) : bool :=
  existsb (String.eqb (psz_name p_ext)) (activated_extensions p_mgr).

(* --------------------------------------------------------------------- *)
(** ** Running the extension code: state, interpreter log, outcomes       *)
(* --------------------------------------------------------------------- *)

(** What the functions below act on: the extension [p_ext] points to and
    the log of the calls made into the interpreter. *)
Record world (M : lua_machine) : Type := {
  w_ext : extension M;
  w_log : list lua_event
}.

Arguments w_ext {M} _.
Arguments w_log {M} _.

(** A run either finishes with a value, crashes (a NULL [lua_State]
    handed to the interpreter, a failed [assert], a Lua error raised
    outside a protected call), or stays blocked on the running lock. *)
Inductive outcome (W A : Type) : Type :=
| Done (a : A) (w : W)
| Crash
| Blocked.

Arguments Done {W A} _ _.
Arguments Crash {W A}.
Arguments Blocked {W A}.

Definition ext_m (M : lua_machine) (A : Type) : Type :=
  world M -> outcome (world M) A.

Definition ret {M A} (a : A) : ext_m M A := fun w => Done a w.

Definition bind {M A B} (c : ext_m M A) (k : A -> ext_m M B) : ext_m M B :=
  fun w =>
    match c w with
    | Done a w' => k a w'
    | Crash => Crash
    | Blocked => Blocked
    end.

Declare Scope ext_scope.
Delimit Scope ext_scope with ext.
Notation "x <- c ;; k" := (bind c (fun x => k))
  (at level 100, c at next level, right associativity) : ext_scope.
Notation "c ;; k" := (bind c (fun _ => k))
  (at level 100, right associativity) : ext_scope.

Section ExtensionRuntime.

Variable M : lua_machine.

Local Open Scope ext_scope.

Definition crash {A} : ext_m M A := fun _ => Crash.

Definition get_ext : ext_m M (extension M) := fun w => Done (w_ext w) w.

Definition emit (e : lua_event) : ext_m M unit :=
  fun w => Done tt {| w_ext := w_ext w; w_log := w_log w ++ [e] |}.

(** [p_ext->p_sys->L = l]. *)
Definition set_L (l : option (lua_State M)) : ext_m M unit :=
  fun w =>
    let e := w_ext w in
    Done tt
      {| w_ext :=
           {| psz_name := psz_name e; psz_title := psz_title e;
              psz_author := psz_author e;
              psz_description := psz_description e;
              psz_url := psz_url e; psz_version := psz_version e;
              i_capabilities := i_capabilities e;
              L := l; p_sync := p_sync e |};
         w_log := w_log w |}.

Definition set_sync (s : ext_sync) : ext_m M unit :=
  fun w =>
    let e := w_ext w in
    Done tt
      {| w_ext :=
           {| psz_name := psz_name e; psz_title := psz_title e;
              psz_author := psz_author e;
              psz_description := psz_description e;
              psz_url := psz_url e; psz_version := psz_version e;
              i_capabilities := i_capabilities e;
              L := L e; p_sync := s |};
         w_log := w_log w |}.

Definition lock_extension : ext_m M bool :=
  e <- get_ext ;;
  match LockExtension (p_sync e) with
  | Some (ok, s) => set_sync s ;; ret ok
  | None => fun _ => Blocked
  end.

Definition unlock_extension : ext_m M unit :=
  e <- get_ext ;;
  set_sync (UnlockExtension (p_sync e)).

(** [GetLuaState( p_mgr, p_ext )] for a non-NULL [p_ext].  A state whose
    script fails to load is dropped without being closed, and
    [p_ext->p_sys->L] stays NULL. *)
Definition GetLuaState : ext_m M (option (lua_State M)) :=
  e <- get_ext ;;
  match L e with
  | Some l => ret (Some l)
  | None =>
      emit LuaNewState ;;
      match luaL_newstate M with
      | None => ret None
      | Some l0 =>
          let l1 := register_libs M true l0 in
          emit (LuaDoFile (psz_name e)) ;;
          let (failed, l2) := luaL_dofile M l1 (psz_name e) in
          if failed then ret None
          else set_L (Some l2) ;; ret (Some l2)
      end
  end.

(** [lua_getglobal( L, name )] through the handle [GetLuaState] gave;
    a NULL handle crashes. *)
Definition getglobal (l : option (lua_State M)) (name : string)
  : ext_m M (lua_State M * lua_value) :=
  match l with
  | None => crash
  | Some l => emit (LuaGetGlobal name) ;; ret (l, lua_getglobal M l name)
  end.

(** [lua_pcall] of [f] on [args].  The interpreter is changed in place:
    when the handle is the extension's own, the extension sees the new
    state. *)
Definition pcall (l : lua_State M) (f : lua_value) (args : list lua_value)
  : ext_m M (option lua_value) :=
  emit (LuaPCall f args) ;;
  let (r, l') := lua_pcall M l f args in
  e <- get_ext ;;
  match L e with
  | Some _ => set_L (Some l') ;; ret r
  | None => ret r
  end.

Definition lua_ExecuteFunction (psz_function : string) : ext_m M vlc_ret :=
  l <- GetLuaState ;;
  lf <- getglobal l psz_function ;;
  if negb (lua_isfunction (snd lf)) then ret VLC_EGENERIC
  else
    r <- pcall (fst lf) (snd lf) [] ;;
    match r with
    | None => ret VLC_EGENERIC
    | Some _ => ret VLC_SUCCESS
    end.

Definition lua_ExtensionActivate : ext_m M vlc_ret :=
  lua_ExecuteFunction "activate".

Definition lua_ExtensionDeactivate : ext_m M vlc_ret :=
  e <- get_ext ;;
  match L e with
  | None => ret VLC_SUCCESS
  | Some _ =>
      i_ret <- lua_ExecuteFunction "deactivate" ;;
      emit LuaClose ;;
      set_L None ;;
      ret i_ret
  end.

Definition TriggerExtension : ext_m M vlc_ret :=
  i_ret <- lua_ExecuteFunction "trigger" ;;
  e <- get_ext ;;
  match L e with
  | Some _ => emit LuaClose
  | None => ret tt
  end ;;
  set_L None ;;
  ret i_ret.

(** [i_ret] is initialised to [VLC_EGENERIC] and never assigned. *)
Definition lua_ExtensionTriggerMenu (id : Z) : ext_m M vlc_ret :=
  let i_ret := VLC_EGENERIC in
  l <- GetLuaState ;;
  match l with
  | None => ret VLC_EGENERIC
  | Some l0 =>
      emit LuaOpenDialog ;;
      let l1 := luaopen_dialog M l0 in
      e <- get_ext ;;
      match L e with
      | Some _ => set_L (Some l1)
      | None => ret tt
      end ;;
      lf <- getglobal (Some l1) "trigger_menu" ;;
      if negb (lua_isfunction (snd lf)) then ret VLC_EGENERIC
      else
        r <- pcall l1 (snd lf) [LNumber id] ;;
        match r with
        | None => ret VLC_EGENERIC
        | Some _ => ret i_ret
        end
  end.

End ExtensionRuntime.

(* --------------------------------------------------------------------- *)
(** ** GetMenuEntries (extension.c)                                       *)
(* --------------------------------------------------------------------- *)

(** The two out-parameters: NULL ([None]) until allocated, then arrays of
    [i_size + 1] cells, zero-filled by [calloc] (a NULL title is [None]). *)
Record menu_out : Type := {
  ppsz_titles : option (list (option string));
  pi_ids : option (list Z)
}.

Definition no_menu : menu_out :=
  {| ppsz_titles := None; pi_ids := None |}.

Definition menu_arrays (titles : list (option string)) (ids : list Z)
  : menu_out :=
  {| ppsz_titles := Some titles; pi_ids := Some ids |}.

(** Conversion to [uint16_t]. *)
Definition to_uint16 (z : Z) : Z := z mod 2 ^ 16.

Inductive menu_walk : Type :=
| WalkDone (titles : list (option string)) (ids : list Z)
| WalkInvalid (titles : list (option string)) (ids : list Z)
| WalkAbort.

Section MenuEntries.

Variable M : lua_machine.

Local Open Scope ext_scope.

(** The [while( lua_next( L, -2 ) != 0 )] loop.  [WalkAbort] is the
    failed [assert( i_idx < i_size )] (or a check function raising). *)
Fixpoint walk_menu (entries : list (lua_value * lua_value))
  (i_size i_idx : nat) (titles : list (option string)) (ids : list Z)
  : menu_walk :=
  match entries with
  | [] => WalkDone titles ids
  | (key, value) :: rest =>
      if negb (i_idx <? i_size)%nat then WalkAbort
      else if negb (lua_isstring value) || negb (lua_isnumber M key)
      then WalkInvalid titles ids
      else
        match luaL_checkstring M value, luaL_checkinteger M key with
        | Some title, Some id =>
            walk_menu rest i_size (S i_idx)
              (<[i_idx := Some title]> titles)
              (<[i_idx := to_uint16 (Z.land id 65535)]> ids)
        | _, _ => WalkAbort
        end
  end.

(** The value returned with the two out-parameters.  A successful
    [lua_pcall] has pushed its one result, so [lua_gettop( L )] is not
    zero where it is tested; every path after [LockExtension] leaves
    through [UnlockExtension]. *)
Definition GetMenuEntries (p_mgr : extensions_manager M)
  : ext_m M (vlc_ret * menu_out) :=
  e <- get_ext M ;;
  if negb (IsActivated p_mgr e) then ret (VLC_EGENERIC, no_menu)
  else
    locked <- lock_extension M ;;
    if negb locked then ret (VLC_EGENERIC, no_menu)
    else
      l <- GetLuaState M ;;
      e <- get_ext M ;;
      r <- (if Z.land (i_capabilities e) EXT_HAS_MENU =? 0
            then ret (VLC_EGENERIC, no_menu)
            else
              lf <- getglobal M l "menu" ;;
              if negb (lua_isfunction (snd lf))
              then ret (VLC_EGENERIC, no_menu)
              else
                r <- pcall M (fst lf) (snd lf) [] ;;
                match r with
                | None => ret (VLC_EGENERIC, no_menu)
                | Some t =>
                    if lua_istable t then
                      let i_size := lua_objlen t in
                      match walk_menu (lua_entries t) i_size O
                              (replicate (S i_size) None)
                              (replicate (S i_size) 0) with
                      | WalkDone titles ids =>
                          ret (VLC_SUCCESS, menu_arrays titles ids)
                      | WalkInvalid titles ids =>
                          ret (VLC_EGENERIC, menu_arrays titles ids)
                      | WalkAbort => crash M
                      end
                    else ret (VLC_EGENERIC, no_menu)
                end) ;;
      unlock_extension M ;;
      ret r.

End MenuEntries.

(* --------------------------------------------------------------------- *)
(** ** ScanLuaCallback (extension.c)                                      *)
(* --------------------------------------------------------------------- *)

(** The callback's result, the manager and the shared interpreter after
    it; or the Lua panic of an error raised outside a protected call. *)
Inductive scan_result (M : lua_machine) : Type :=
| ScanRet (i_ret : Z) (p_mgr : extensions_manager M) (l : lua_State M)
| ScanPanic.

Arguments ScanRet {M} _ _ _.
Arguments ScanPanic {M}.

Section Scan.

Variable M : lua_machine.

(** The walk over the [capabilities] table; [None] when
    [luaL_checkstring] raises. *)
Fixpoint scan_capabilities (entries : list (lua_value * lua_value))
  (caps : Z) : option Z :=
  match entries with
  | [] => Some caps
  | (_, value) :: rest =>
      match luaL_checkstring M value with
      | None => None
      | Some psz_cap =>
          match find_capability ppsz_capabilities O psz_cap with
          | Some i_cap =>
              scan_capabilities rest
                (Z.lor caps (Z.shiftl 1 (Z.of_nat i_cap)))
          | None => scan_capabilities rest caps
          end
      end
  end.

(** [lua_getfield] then [strdup( luaL_checkstring )] under
    [lua_isstring], NULL otherwise. *)
Definition string_field (t : lua_value) (k : string) : option string :=
  let v := lua_getfield t k in
  if lua_isstring v then luaL_checkstring M v else None.

(** [pb_continue ? ( *pb_continue ? -1 : 0 ) : -1]. *)
Definition continue_batch (pb_continue : option bool) : Z :=
  match pb_continue with
  | Some true => -1
  | Some false => 0
  | None => -1
  end.

(** One script of the batch.  A successful [lua_pcall] has pushed its
    one result, so [lua_gettop( L )] is not zero where it is tested;
    allocation is taken to succeed.  [skip] is the exit with [b_ok]
    false: the entry is freed and the catalog left as it was. *)
Definition ScanLuaCallback (p_mgr : extensions_manager M)
  (psz_script : string) (l : lua_State M) (pb_continue : option bool)
  : scan_result M :=
  let skip l' := ScanRet (continue_batch pb_continue) p_mgr l' in
  let (failed, l1) := luaL_dofile M l psz_script in
  if failed then skip l1
  else
    let f := lua_getglobal M l1 "descriptor" in
    if negb (lua_isfunction f) then skip l1
    else
      let (r, l2) := lua_pcall M l1 f [] in
      match r with
      | None => skip l2
      | Some t =>
          if lua_istable t then
            let caps_field := lua_getfield t "capabilities" in
            match (if lua_istable caps_field
                   then scan_capabilities (lua_entries caps_field) 0
                   else Some 0) with
            | None => ScanPanic
            | Some caps =>
                let p_ext :=
                  {| psz_name := psz_script;
                     psz_title :=
                       match string_field t "title" with
                       | Some s => Some s
                       | None => Some psz_script
                       end;
                     psz_author := string_field t "author";
                     psz_description := string_field t "description";
                     psz_url := string_field t "url";
                     psz_version := string_field t "version";
                     i_capabilities := caps;
                     L := None;
                     p_sync :=
                       {| b_exiting := false; running_lock := Unlocked |}
                  |} in
                ScanRet (continue_batch pb_continue)
                  {| extensions := extensions p_mgr ++ [p_ext];
                     activated_extensions := activated_extensions p_mgr |}
                  l2
            end
          else skip l2
      end.

End Scan.

(* --------------------------------------------------------------------- *)
(** ** A small interpreter for examples                                   *)
(* --------------------------------------------------------------------- *)

(** A script with fixed behaviour: whether its top level loads, what its
    globals hold, and what calling a function value gives.  The
    interpreter state carries nothing. *)
Definition script_machine (loads : bool) (globals : string -> lua_value)
  (call : lua_value -> list lua_value -> option lua_value) : lua_machine :=
  {| lua_State := unit;
     luaL_newstate := Some tt;
     register_libs := fun _ l => l;
     luaopen_dialog := fun l => l;
     luaL_dofile := fun l _ => (negb loads, l);
     lua_getglobal := fun _ name => globals name;
     lua_pcall := fun l f args => (call f args, l);
     lua_number2str := fun _ => "0";
     lua_str2number := fun _ => None |}.

Definition new_extension (M : lua_machine) (name : string) (caps : Z)
  (l : option (lua_State M)) (s : ext_sync) : extension M :=
  {| psz_name := name; psz_title := Some name; psz_author := None;
     psz_description := None; psz_url := None; psz_version := None;
     i_capabilities := caps; L := l; p_sync := s |}.

Definition idle : ext_sync :=
  {| b_exiting := false; running_lock := Unlocked |}.

(** The running lock held by another thread, the flag clear. *)
Definition held_by_other : ext_sync :=
  {| b_exiting := false; running_lock := LockedByOther |}.

(** A caller that entered [LockExtension] on [held_by_other] and tried
    the mutex: it has read the flag as false and waits. *)
Definition blocked_call : lock_call :=
  run_schedule [Caller; Caller] (enter_lock held_by_other).

(** A script for examples: "menu" and "trigger_menu" are functions, the
    menu being a table whose single entry has the key 70000. *)
Definition sample_menu : lua_value :=
  LTable (Z.to_nat 70000) [(LNumber 70000, LString "Settings")].

Definition sample_globals (name : string) : lua_value :=
  if String.eqb name "menu" then LFunction 1
  else if String.eqb name "trigger_menu" then LFunction 2
  else LNil.

Definition sample_call (f : lua_value) (args : list lua_value)
  : option lua_value :=
  match f with
  | LFunction 1 => Some sample_menu
  | LFunction _ => Some LNil
  | _ => None
  end.

Definition sample_machine : lua_machine :=
  script_machine true sample_globals sample_call.

Definition sample_world (caps : Z) (l : option unit) : world sample_machine :=
  {| w_ext := new_extension sample_machine "ext.lua" caps l idle;
     w_log := [] |}.

Definition sample_manager : extensions_manager sample_machine :=
  {| extensions := []; activated_extensions := ["ext.lua"] |}.

(** A menu entry as the loop wants it: a key that is a number and a
    value that is a string. *)
Definition menu_entry_ok (M : lua_machine) (kv : lua_value * lua_value)
  : Prop :=
  lua_isnumber M (fst kv) = true /\ lua_isstring (snd kv) = true.

(** The flags as the specification words them: each name of the
    vocabulary has the flag at its position, any other name has none, and
    a list of names has the bitwise OR of its names' flags. *)
Definition capability_flag (name : string) : Z :=
  if String.eqb "menu" name then EXT_HAS_MENU
  else if String.eqb "trigger" name then EXT_TRIGGER_ONLY
  else if String.eqb "input-listener" name then EXT_INPUT_LISTENER
  else 0.

Definition capability_bits (names : list string) : Z :=
  fold_right (fun name acc => Z.lor (capability_flag name) acc) 0 names.

(** A script for examples whose [descriptor] lists two known
    capabilities and an unknown one. *)
Definition sample_descriptor : lua_value :=
  LTable O
    [(LString "title", LString "Sample");
     (LString "capabilities",
      LTable 3%nat
        [(LNumber 1, LString "menu"); (LNumber 2, LString "bogus");
         (LNumber 3, LString "input-listener")])].

Definition descriptor_machine : lua_machine :=
  script_machine true
    (fun name => if String.eqb name "descriptor" then LFunction 7 else LNil)
    (fun f _ => match f with
                | LFunction 7 => Some sample_descriptor
                | _ => None
                end).

Definition empty_manager (M : lua_machine) : extensions_manager M :=
  {| extensions := []; activated_extensions := [] |}.

(** An allow-list for examples: letters, digits, and [/ . : _]. *)
Definition allow_path_chars (c : ascii) : bool :=
  let n := N_of_ascii c in
  ((97 <=? n) && (n <=? 122) || (65 <=? n) && (n <=? 90)
   || (46 <=? n) && (n <=? 58) || (n =? 95))%N.

(** The encoding as the specification words it: every ['?'] is followed
    by two hexadecimal digits, and every byte outside such an escape is
    on the allow-list. *)
Definition is_hex (c : ascii) : bool :=
  match hex_digit c with Some _ => true | None => false end.

Fixpoint well_escaped (allowed : ascii -> bool) (s : string) : bool :=
  match s with
  | EmptyString => true
  | String c rest =>
      if Ascii.eqb c "?"%char then
        match rest with
        | String h1 (String h2 rest') =>
            is_hex h1 && is_hex h2 && well_escaped allowed rest'
        | _ => false
        end
      else allowed c && well_escaped allowed rest
  end.

(** The decoding as the specification words it: ['?'] followed by two
    hexadecimal digits stands for the byte with that code, any other
    byte for itself.  The cases of an escape cut short or without two
    digits are those [well_escaped] excludes. *)
Fixpoint decode_escapes (s : string) : string :=
  match s with
  | EmptyString => EmptyString
  | String c rest =>
      if Ascii.eqb c "?"%char then
        match rest with
        | String h1 (String h2 rest') =>
            match hex_digit h1, hex_digit h2 with
            | Some d1, Some d2 =>
                String (char_of_int (16 * d1 + d2)) (decode_escapes rest')
            | _, _ => EmptyString
            end
        | _ => EmptyString
        end
      else String c (decode_escapes rest)
  end.

(** Whether the byte [c] occurs in [s]. *)
Fixpoint str_mem (c : ascii) (s : string) : bool :=
  match s with
  | EmptyString => false
  | String d rest => Ascii.eqb d c || str_mem c rest
  end.

(** A stream for examples: its position, with a fixed size, on a
    transport whose seek always reports an error. *)
Definition fixed_size : Z := 100.
Definition failing_seek (s : Z) (pos : Z) : vlc_ret * Z := (VLC_EGENERIC, s).

(* --------------------------------------------------------------------- *)
(** ** ZipIO_Open, ZipIO_Tell (zipaccess.c)                               *)
(* --------------------------------------------------------------------- *)

(** Conversion to [long], [bits] wide. *)
Definition to_long (bits : Z) (z : Z) : Z :=
  (z + 2 ^ (bits - 1)) mod 2 ^ bits - 2 ^ (bits - 1).

(** What [ZipIO_Open] comes to: the failed [assert] on the mode, or the
    URI handed to [vlc_stream_NewURL] with the stream it gave (NULL is
    [None]). *)
Inductive zip_open (stream_t : Type) : Type :=
| ZipOpenAbort
| ZipOpened (fileUri : string) (s : option stream_t).

Arguments ZipOpenAbort {stream_t}.
Arguments ZipOpened {stream_t} _ _.

Section ZipIOOpen.

Variable stream_t : Type.
Variable vlc_stream_NewURL : string -> option stream_t.
Variable vlc_stream_Tell : stream_t -> Z.

(** The two mode bits of ioapi.h and the width of [long]. *)
Variable ZLIB_FILEFUNC_MODE_READ : Z.
Variable ZLIB_FILEFUNC_MODE_EXISTING : Z.
Variable long_bits : Z.

(** The text built in [fileUri]: "file://" is put in front when [file]
    holds no "://". *)
Definition file_uri (file : string) : string :=
  match strstr file "://" with
  | None => "file://" ++ file
  | Some _ => file
  end.

Definition ZipIO_Open (file : string) (mode : Z) : zip_open stream_t :=
  if mode =? Z.lor ZLIB_FILEFUNC_MODE_READ ZLIB_FILEFUNC_MODE_EXISTING
  then ZipOpened (file_uri file) (vlc_stream_NewURL (file_uri file))
  else ZipOpenAbort.

(** [(long) i64_tell], the position having gone through [int64_t]. *)
Definition ZipIO_Tell (stream : stream_t) : Z :=
  to_long long_bits (to_int64 (vlc_stream_Tell stream)).

End ZipIOOpen.

(** A reference encoder for the escape scheme: every byte written as
    ['?'] and its two hexadecimal digits (upper case). *)
Definition hex_char (d : Z) : ascii :=
  if d <? 10 then ascii_of_N (Z.to_N (48 + d))
  else ascii_of_N (Z.to_N (55 + d)).

Fixpoint escape_all (s : string) : string :=
  match s with
  | EmptyString => EmptyString
  | String c rest =>
      let n := Z.of_N (N_of_ascii c) in
      String "?"%char
        (String (hex_char (n / 16))
           (String (hex_char (n mod 16)) (escape_all rest)))
  end.

(** Whether every byte of [s] passes [P]. *)
Fixpoint str_forall (P : ascii -> bool) (s : string) : bool :=
  match s with
  | EmptyString => true
  | String c rest => P c && str_forall P rest
  end.


(* --------------------------------------------------------------------- *)
(** ** lua_ExtensionWidgetClick and Control (extension.c)                 *)
(* --------------------------------------------------------------------- *)

Section WidgetClick.

Variable M : lua_machine.

Local Open Scope ext_scope.

(** [psz_function] is the text [p_widget->p_sys] points to. *)
Definition lua_ExtensionWidgetClick (psz_function : string)
  : ext_m M vlc_ret :=
  e <- get_ext M ;;
  match L e with
  | None => ret VLC_SUCCESS
  | Some _ => lua_ExecuteFunction M psz_function
  end.

End WidgetClick.

(** The requests [Control] is given, with the arguments it reads.  The
    values of the [EXTENSION_*] codes are in vlc_extensions.h;
    [EXTENSION_OTHER] stands for any code that is none of them. *)
Inductive control_query : Type :=
| EXTENSION_ACTIVATE
| EXTENSION_DEACTIVATE
| EXTENSION_IS_ACTIVATED
| EXTENSION_HAS_MENU
| EXTENSION_GET_MENU
| EXTENSION_TRIGGER_ONLY
| EXTENSION_TRIGGER
| EXTENSION_TRIGGER_MENU (id : Z)
| EXTENSION_SET_INPUT (p_input : option nat)
| EXTENSION_OTHER (i_control : Z).

(** The commands this file pushes (extension.h). *)
Inductive command : Type :=
| CMD_TRIGGERMENU (id : Z)
| CMD_SET_INPUT.

(** What [Control] stores through the pointers it is given. *)
Inductive control_answer : Type :=
| NoAnswer
| BoolAnswer (b : bool)
| MenuAnswer (m : menu_out).

(** [vlc_object_hold] and [vlc_object_release] on an input, in order. *)
Inductive ref_event : Type :=
| Hold (input : nat)
| Release (input : nat).

(** What [Control] acts on: the extension with the interpreter log, the
    manager, the input [p_ext->p_sys->p_input] points to, the holds and
    releases made so far, and the command queue. *)
Record control_state (M : lua_machine) (Q : Type) : Type := {
  cs_world : world M;
  cs_mgr : extensions_manager M;
  cs_input : option nat;
  cs_refs : list ref_event;
  cs_queue : Q
}.

Arguments cs_world {M Q} _.
Arguments cs_mgr {M Q} _.
Arguments cs_input {M Q} _.
Arguments cs_refs {M Q} _.
Arguments cs_queue {M Q} _.

Section Control.

Variable M : lua_machine.
Variable Q : Type.

(** [Activate], [Deactivate] and [PushCommand] are functions of
    extension_thread.c. *)
Variable Activate : control_state M Q -> vlc_ret * control_state M Q.
Variable Deactivate : control_state M Q -> vlc_ret * control_state M Q.
Variable PushCommand : command -> Q -> vlc_ret * Q.

Definition with_world (w : world M) (cs : control_state M Q)
  : control_state M Q :=
  {| cs_world := w; cs_mgr := cs_mgr cs; cs_input := cs_input cs;
     cs_refs := cs_refs cs; cs_queue := cs_queue cs |}.

(** Runs a function of the runtime on the extension of [cs]. *)
Definition on_extension {A B} (c : ext_m M A) (k : A -> B)
  (cs : control_state M Q) : outcome (control_state M Q) B :=
  match c (cs_world cs) with
  | Done a w => Done (k a) (with_world w cs)
  | Crash => Crash
  | Blocked => Blocked
  end.

(** [TriggerMenu]: the result of [PushCommand]. *)
Definition TriggerMenu (id : Z) (cs : control_state M Q)
  : vlc_ret * control_state M Q :=
  let (r, q) := PushCommand (CMD_TRIGGERMENU id) (cs_queue cs) in
  (r, {| cs_world := cs_world cs; cs_mgr := cs_mgr cs;
         cs_input := cs_input cs; cs_refs := cs_refs cs; cs_queue := q |}).

(** The [EXTENSION_SET_INPUT] case, entered with the running lock taken
    and [w] the extension under that lock. *)
Definition change_input (p_input : option nat) (w : world M)
  (cs : control_state M Q) : control_state M Q :=
  let released :=
    match cs_input cs with
    | Some old => [Release old]
    | None => []
    end in
  let held :=
    match p_input with
    | Some input => [Hold input]
    | None => []
    end in
  {| cs_world := w;
     cs_mgr := cs_mgr cs;
     cs_input := p_input;
     cs_refs := cs_refs cs ++ released ++ held;
     cs_queue :=
       if Z.land (i_capabilities (w_ext w)) EXT_INPUT_LISTENER =? 0
       then cs_queue cs
       else snd (PushCommand CMD_SET_INPUT (cs_queue cs)) |}.

Definition Control (i_control : control_query) (cs : control_state M Q)
  : outcome (control_state M Q) (vlc_ret * control_answer) :=
  let p_ext := w_ext (cs_world cs) in
  match i_control with
  | EXTENSION_ACTIVATE =>
      let (r, cs') := Activate cs in Done (r, NoAnswer) cs'
  | EXTENSION_DEACTIVATE =>
      let (r, cs') := Deactivate cs in Done (r, NoAnswer) cs'
  | EXTENSION_IS_ACTIVATED =>
      Done (VLC_SUCCESS, BoolAnswer (IsActivated (cs_mgr cs) p_ext)) cs
  | EXTENSION_HAS_MENU =>
      Done (VLC_SUCCESS,
            BoolAnswer
              (negb (Z.land (i_capabilities p_ext) EXT_HAS_MENU =? 0))) cs
  | EXTENSION_GET_MENU =>
      on_extension (GetMenuEntries M (cs_mgr cs))
        (fun r => (fst r, MenuAnswer (snd r))) cs
  | EXTENSION_TRIGGER_ONLY =>
      Done (VLC_SUCCESS,
            BoolAnswer
              (negb (Z.land (i_capabilities p_ext) EXT_TRIGGER_ONLY =? 0)))
        cs
  | EXTENSION_TRIGGER =>
      on_extension (TriggerExtension M) (fun r => (r, NoAnswer)) cs
  | EXTENSION_TRIGGER_MENU id =>
      let (r, cs') := TriggerMenu id cs in Done (r, NoAnswer) cs'
  | EXTENSION_SET_INPUT p_input =>
      match lock_extension M (cs_world cs) with
      | Done false w => Done (VLC_EGENERIC, NoAnswer) (with_world w cs)
      | Done true w =>
          let cs' := change_input p_input w cs in
          match unlock_extension M (cs_world cs') with
          | Done _ w' => Done (VLC_SUCCESS, NoAnswer) (with_world w' cs')
          | Crash => Crash
          | Blocked => Blocked
          end
      | Crash => Crash
      | Blocked => Blocked
      end
  | EXTENSION_OTHER _ => Done (VLC_EGENERIC, NoAnswer) cs
  end.

End Control.

(** A script for examples that does not load. *)
Definition broken_machine : lua_machine :=
  script_machine false (fun _ => LNil) (fun _ _ => None).

Definition broken_world : world broken_machine :=
  {| w_ext := new_extension broken_machine "broken.lua" 0 None idle;
     w_log := [] |}.

(** The extension after a menu query that reached the script: its state
    is the one the call of "menu" left, the lock is free again. *)
Definition after_menu {M : lua_machine} (e : extension M)
  (log : list lua_event) (f : lua_value) (l' : lua_State M) : world M :=
  {| w_ext :=
       {| psz_name := psz_name e; psz_title := psz_title e;
          psz_author := psz_author e;
          psz_description := psz_description e;
          psz_url := psz_url e; psz_version := psz_version e;
          i_capabilities := i_capabilities e;
          L := Some l'; p_sync := idle |};
     w_log := (log ++ [LuaGetGlobal "menu"; LuaPCall f []])%list |}.


(** A script for examples whose "menu" function returns [t]. *)
Definition menu_machine (t : lua_value) : lua_machine :=
  script_machine true
    (fun name => if String.eqb name "menu" then LFunction 1 else LNil)
    (fun f _ => match f with
                | LFunction 1 => Some t
                | _ => None
                end).

Definition menu_world (t : lua_value) : world (menu_machine t) :=
  {| w_ext := new_extension (menu_machine t) "ext.lua" EXT_HAS_MENU
                (Some tt) idle;
     w_log := [] |}.

Definition menu_manager (t : lua_value) : extensions_manager (menu_machine t) :=
  {| extensions := []; activated_extensions := ["ext.lua"] |}.

(** A menu whose second entry has a value that is not a string. *)
Definition bad_value_menu : lua_value :=
  LTable 2%nat [(LNumber 1, LString "Open"); (LNumber 2, LBoolean true)].

(** A menu with a gap in its keys: its length is 1, it has two
    entries. *)
Definition sparse_menu : lua_value :=
  LTable 1%nat [(LNumber 1, LString "Open"); (LNumber 5, LString "Close")].


(** A script for examples whose [descriptor] lists a capability that is
    not a string. *)
Definition odd_descriptor : lua_value :=
  LTable O
    [(LString "capabilities",
      LTable 2%nat [(LNumber 1, LString "menu"); (LNumber 2, LBoolean true)])].

Definition odd_machine : lua_machine :=
  script_machine true
    (fun name => if String.eqb name "descriptor" then LFunction 7 else LNil)
    (fun f _ => match f with
                | LFunction 7 => Some odd_descriptor
                | _ => None
                end).


(** A descriptor whose first capability name holds a NUL: [strcmp] sees
    "menu".  The second name only starts like a known one. *)
Definition nul_descriptor : lua_value :=
  LTable O
    [(LString "capabilities",
      LTable 2%nat
        [(LNumber 1, LString ("menu" ++ String zero "-bar"));
         (LNumber 2, LString "triggers")])].

Definition nul_machine : lua_machine :=
  script_machine true
    (fun name => if String.eqb name "descriptor" then LFunction 7 else LNil)
    (fun f _ => match f with
                | LFunction 7 => Some nul_descriptor
                | _ => None
                end).

(** The catalog entry the scan makes of [nul_descriptor]. *)
Definition nul_entry : extension nul_machine :=
  {| psz_name := "cut.lua"; psz_title := Some "cut.lua";
     psz_author := None; psz_description := None; psz_url := None;
     psz_version := None; i_capabilities := EXT_HAS_MENU; L := None;
     p_sync := idle |}.

(** The catalog entry the scan makes of [sample_descriptor]. *)
Definition sample_entry : extension descriptor_machine :=
  {| psz_name := "sample.lua"; psz_title := Some "Sample";
     psz_author := None; psz_description := None; psz_url := None;
     psz_version := None; i_capabilities := 5; L := None;
     p_sync := idle |}.

(* ===================================================================== *)
(** * Part II.  Theorems                                                  *)
(* ===================================================================== *)

(* --------------------------------------------------------------------- *)
(** ** Strings                                                            *)
(* --------------------------------------------------------------------- *)

Lemma prefix_append (n t : string) : str_prefix n (n ++ t) = true.
Proof.
  induction n as [|c n IH]; simpl; [reflexivity|].
  rewrite Ascii.eqb_refl. exact IH.
Qed.

Lemma prefix_split (n h : string) :
  str_prefix n h = true -> h = n ++ str_drop (String.length n) h.
Proof.
  revert h. induction n as [|c n IH]; intros h H; simpl in *.
  - destruct h; reflexivity.
  - destruct h as [|d h]; [discriminate|].
    apply andb_true_iff in H as [Hc Hn].
    apply Ascii.eqb_eq in Hc as ->.
    simpl. f_equal. apply IH, Hn.
Qed.

Lemma str_drop_add (i j : nat) (h : string) :
  str_drop (i + j) h = str_drop j (str_drop i h).
Proof.
  revert h. induction i as [|i IH]; intros h; simpl; [reflexivity|].
  destruct h as [|c h]; [destruct j; reflexivity | apply IH].
Qed.

Lemma str_take_length (i : nat) (h : string) :
  (String.length (str_take i h) <= i)%nat.
Proof.
  revert h. induction i as [|i IH]; intros [|c h]; simpl; try lia.
  specialize (IH h). lia.
Qed.

Lemma str_take_app (a x : string) : str_take (String.length a) (a ++ x) = a.
Proof.
  induction a as [|c a IH]; simpl; [destruct x; reflexivity|].
  f_equal. exact IH.
Qed.

Lemma str_drop_app (a x : string) : str_drop (String.length a) (a ++ x) = x.
Proof. induction a as [|c a IH]; simpl; [reflexivity | exact IH]. Qed.

Lemma strstr_Some_split (h n : string) (i : nat) :
  strstr h n = Some i ->
  h = str_take i h ++ n ++ str_drop (i + String.length n) h.
Proof.
  revert i. induction h as [|c h IH]; intros i H.
  - simpl in H. destruct (str_prefix n "") eqn:P; [|discriminate].
    injection H as <-. apply prefix_split in P. simpl. exact P.
  - cbn [strstr] in H. destruct (str_prefix n (String c h)) eqn:P.
    + injection H as <-. apply prefix_split in P. exact P.
    + destruct (strstr h n) as [k|] eqn:E; [|discriminate].
      injection H as <-. simpl. f_equal. apply IH. reflexivity.
Qed.

Lemma strstr_Some_first (h n : string) (i j : nat) :
  strstr h n = Some i -> (j < i)%nat ->
  str_prefix n (str_drop j h) = false.
Proof.
  revert i j. induction h as [|c h IH]; intros i j H Hj.
  - simpl in H. destruct (str_prefix n ""); [|discriminate].
    injection H as <-. lia.
  - cbn [strstr] in H. destruct (str_prefix n (String c h)) eqn:P.
    + injection H as <-. lia.
    + destruct (strstr h n) as [k|] eqn:E; [|discriminate].
      injection H as <-. destruct j as [|j]; [exact P|].
      simpl. apply (IH k); [reflexivity | lia].
Qed.

Lemma strstr_None (h n : string) (j : nat) :
  strstr h n = None -> str_prefix n (str_drop j h) = false.
Proof.
  revert j. induction h as [|c h IH]; intros j H.
  - simpl in H. destruct (str_prefix n "") eqn:P; [discriminate|].
    destruct j; exact P.
  - cbn [strstr] in H. destruct (str_prefix n (String c h)) eqn:P;
      [discriminate|].
    destruct (strstr h n) eqn:E; [discriminate|].
    destruct j as [|j]; [exact P | simpl; apply IH; reflexivity].
Qed.

(** A text that holds the needle is not answered with NULL. *)
Lemma strstr_None_absent (h n a b : string) :
  strstr h n = None -> h <> a ++ n ++ b.
Proof.
  intros H ->. pose proof (strstr_None _ _ (String.length a) H) as P.
  rewrite str_drop_app, prefix_append in P. discriminate.
Qed.

(** [strstr] finds the first occurrence: the shortest text before it. *)
Lemma strstr_first_occurrence (h n a b : string) :
  h = a ++ n ++ b ->
  (forall a' b', h = a' ++ n ++ b' ->
                 (String.length a <= String.length a')%nat) ->
  strstr h n = Some (String.length a).
Proof.
  intros Hh Hmin. destruct (strstr h n) as [i|] eqn:E.
  - f_equal. pose proof (strstr_Some_split _ _ _ E) as Hs.
    pose proof (Hmin _ _ Hs) as Hle.
    pose proof (str_take_length i h) as Hti.
    destruct (Nat.lt_ge_cases (String.length a) i) as [Hlt|Hge]; [|lia].
    pose proof (strstr_Some_first _ _ _ _ E Hlt) as P.
    rewrite Hh, str_drop_app, prefix_append in P. discriminate.
  - exfalso. exact (strstr_None_absent _ _ _ _ E Hh).
Qed.

Lemma strstr_Some_minimal (h n a b : string) (i : nat) :
  strstr h n = Some i -> h = a ++ n ++ b -> (i <= String.length a)%nat.
Proof.
  intros E Hh.
  destruct (Nat.lt_ge_cases (String.length a) i) as [Hlt|Hge]; [|lia].
  pose proof (strstr_Some_first _ _ _ _ E Hlt) as P.
  rewrite Hh, str_drop_app, prefix_append in P. discriminate.
Qed.

(* --------------------------------------------------------------------- *)
(** ** unescapeXml                                                        *)
(* --------------------------------------------------------------------- *)

Lemma hex_digit_plain (c : ascii) (d : Z) :
  hex_digit c = Some d ->
  isspace c = false /\ Ascii.eqb c "+"%char = false
  /\ Ascii.eqb c "-"%char = false.
Proof.
  destruct c as [[|] [|] [|] [|] [|] [|] [|] [|]]; vm_compute;
    intros H; try discriminate H; repeat split.
Qed.

Lemma sscanf_02x_two_digits (h1 h2 : ascii) (rest : string) (d1 d2 : Z) :
  hex_digit h1 = Some d1 -> hex_digit h2 = Some d2 ->
  sscanf_02x (String h1 (String h2 rest)) = Matched (16 * d1 + d2).
Proof.
  intros H1 H2. destruct (hex_digit_plain h1 d1 H1) as (Hs & Hp & Hm).
  unfold sscanf_02x. cbn [skip_space]. rewrite Hs, Hp, Hm, H1, H2.
  reflexivity.
Qed.

Section UnescapeFacts.

Variable allowed : ascii -> bool.

(** Without a ['?'] the loop copies its input or gives NULL. *)
Lemma unescapeXml_loop_plain (s : string) :
  str_mem "?"%char s = false ->
  unescapeXml_loop allowed s = Unescaped s
  \/ unescapeXml_loop allowed s = UnescapeNull.
Proof.
  induction s as [|c s IH]; intros H; simpl in *; [left; reflexivity|].
  apply orb_false_iff in H as [Hc Hs]. rewrite Hc.
  destruct (allowed c); [|right; reflexivity].
  destruct (IH Hs) as [-> | ->]; [left | right]; reflexivity.
Qed.

Lemma unescape_or_dup_plain (s : string) :
  str_mem "?"%char s = false -> c_str s = s ->
  unescape_or_dup allowed s = Some s.
Proof.
  intros H Hc. unfold unescape_or_dup, unescapeXml.
  destruct (unescapeXml_loop_plain s H) as [-> | ->];
    [rewrite Hc|]; reflexivity.
Qed.

(** Over a well-formed prefix the loop only copies and decodes: what the
    whole text comes to is decided by what follows the prefix. *)
Lemma unescapeXml_loop_app_aux (n : nat) :
  forall p, (String.length p <= n)%nat -> well_escaped allowed p = true ->
  exists buf, forall t,
    unescapeXml_loop allowed (p ++ t)
    = unescaped_app buf (unescapeXml_loop allowed t).
Proof.
  induction n as [|n IH]; intros p Hlen Hw.
  - destruct p; [|simpl in Hlen; lia].
    exists "". intros t. simpl. destruct (unescapeXml_loop allowed t);
      reflexivity.
  - destruct p as [|a p].
    { exists "". intros t. simpl.
      destruct (unescapeXml_loop allowed t); reflexivity. }
    cbn [well_escaped] in Hw. simpl in Hlen.
    destruct (Ascii.eqb a "?"%char) eqn:Ea.
    + destruct p as [|h1 [|h2 p]]; try discriminate Hw.
      apply andb_true_iff in Hw as [Hh Hw].
      apply andb_true_iff in Hh as [Hh1 Hh2].
      unfold is_hex in Hh1, Hh2.
      destruct (hex_digit h1) as [d1|] eqn:E1; [|discriminate].
      destruct (hex_digit h2) as [d2|] eqn:E2; [|discriminate].
      destruct (IH p) as [buf Hbuf]; [simpl in Hlen; lia | exact Hw |].
      exists (String (char_of_int (16 * d1 + d2)) buf). intros t.
      change (String a (String h1 (String h2 p)) ++ t)
        with (String a (String h1 (String h2 (p ++ t)))).
      cbn [unescapeXml_loop]. rewrite Ea.
      rewrite (sscanf_02x_two_digits h1 h2 _ d1 d2 E1 E2), Hbuf.
      destruct (unescapeXml_loop allowed t); reflexivity.
    + apply andb_true_iff in Hw as [Hal Hw].
      destruct (IH p) as [buf Hbuf]; [lia | exact Hw |].
      exists (String a buf). intros t.
      change (String a p ++ t) with (String a (p ++ t)).
      cbn [unescapeXml_loop]. rewrite Ea, Hal, Hbuf.
      destruct (unescapeXml_loop allowed t); reflexivity.
Qed.

Lemma unescapeXml_loop_app (p : string) :
  well_escaped allowed p = true ->
  exists buf, forall t,
    unescapeXml_loop allowed (p ++ t)
    = unescaped_app buf (unescapeXml_loop allowed t).
Proof. apply (unescapeXml_loop_app_aux (String.length p)). lia. Qed.

(** A text in which every ['?'] is followed by two hexadecimal digits
    and every other byte is allowed is decoded. *)
Lemma unescapeXml_well_escaped (s : string) :
  well_escaped allowed s = true ->
  exists buf, unescapeXml allowed s = Unescaped buf.
Proof.
  intros Hw. destruct (unescapeXml_loop_app s Hw) as [buf Hbuf].
  specialize (Hbuf ""). unfold unescapeXml.
  assert (Hs : s ++ "" = s) by (clear; induction s; simpl; congruence).
  rewrite Hs in Hbuf. rewrite Hbuf. eexists. reflexivity.
Qed.

(** After a well-formed prefix, a byte that is neither ['?'] nor allowed
    makes the call give NULL. *)
Lemma unescapeXml_rejects_byte (p : string) (c : ascii) (rest : string) :
  well_escaped allowed p = true ->
  Ascii.eqb c "?"%char = false -> allowed c = false ->
  unescapeXml allowed (p ++ String c rest) = UnescapeNull.
Proof.
  intros Hw Hq Ha. destruct (unescapeXml_loop_app p Hw) as [buf Hbuf].
  unfold unescapeXml. rewrite Hbuf. cbn [unescapeXml_loop].
  rewrite Hq, Ha. reflexivity.
Qed.

(** After a well-formed prefix, a ['?'] followed by a byte that cannot
    start a hexadecimal number (not a digit, a sign or white space) makes
    the call give NULL. *)
Lemma unescapeXml_rejects_non_hex (p : string) (c : ascii) (rest : string) :
  well_escaped allowed p = true ->
  hex_digit c = None -> isspace c = false ->
  Ascii.eqb c "+"%char = false -> Ascii.eqb c "-"%char = false ->
  unescapeXml allowed (p ++ String "?"%char (String c rest)) = UnescapeNull.
Proof.
  intros Hw Hh Hs Hp Hm. destruct (unescapeXml_loop_app p Hw) as [buf Hbuf].
  unfold unescapeXml. rewrite Hbuf. cbn [unescapeXml_loop Ascii.eqb].
  unfold sscanf_02x. cbn [skip_space Bool.eqb]. rewrite Hs, Hp, Hm, Hh.
  reflexivity.
Qed.

End UnescapeFacts.

Example unescapeXml_escape :
  unescapeXml allow_path_chars "a?41b" = Unescaped "aAb".
Proof. reflexivity. Qed.

Example unescapeXml_bad_byte :
  unescapeXml allow_path_chars "a<b" = UnescapeNull.
Proof. reflexivity. Qed.

Example unescapeXml_bad_hex :
  unescapeXml allow_path_chars "a?g1b" = UnescapeNull.
Proof. reflexivity. Qed.

Example unescapeXml_nul_cuts :
  unescapeXml allow_path_chars "ab?00cd" = Unescaped "ab".
Proof. reflexivity. Qed.

(** C6.  [unescapeXml] does not return NULL on every malformed input: on
    "?4<" the escape has a single hexadecimal digit and the byte '<'
    belongs to no escape, yet the call gives the one-byte string 0x04
    (whatever the allow-list); on "?" and on "?4", where the escape is cut
    short, the call does not return NULL either but runs past the end of
    the text. *)
Theorem unescapeXml_accepts_malformed_escapes :
  forall allowed : ascii -> bool,
    (well_escaped allowed "?4<" = false
     /\ unescapeXml allowed "?4<" = Unescaped (String (ascii_of_nat 4) ""))
    /\ (well_escaped allowed "?" = false
        /\ unescapeXml allowed "?" = UnescapeUB)
    /\ (well_escaped allowed "?4" = false
        /\ unescapeXml allowed "?4" = UnescapeUB).
Proof. intros allowed. repeat split; reflexivity. Qed.

(* --------------------------------------------------------------------- *)
(** ** AccessOpen                                                         *)
(* --------------------------------------------------------------------- *)

(** On a text in which every ['?'] is followed by two hexadecimal digits
    and every other byte is allowed, the loop writes the decoding the
    specification describes. *)
Lemma unescapeXml_loop_decodes (allowed : ascii -> bool) (n : nat) :
  forall s, (String.length s <= n)%nat -> well_escaped allowed s = true ->
    unescapeXml_loop allowed s = Unescaped (decode_escapes s).
Proof.
  induction n as [|n IH]; intros s Hlen Hw.
  - destruct s; [reflexivity | simpl in Hlen; lia].
  - destruct s as [|a s]; [reflexivity|].
    cbn [well_escaped] in Hw. simpl in Hlen.
    cbn [unescapeXml_loop decode_escapes].
    destruct (Ascii.eqb a "?"%char) eqn:Ea.
    + destruct s as [|h1 [|h2 s]]; try discriminate Hw.
      apply andb_true_iff in Hw as [Hh Hw].
      apply andb_true_iff in Hh as [Hh1 Hh2].
      unfold is_hex in Hh1, Hh2.
      destruct (hex_digit h1) as [d1|] eqn:E1; [|discriminate].
      destruct (hex_digit h2) as [d2|] eqn:E2; [|discriminate].
      rewrite (sscanf_02x_two_digits h1 h2 _ d1 d2 E1 E2).
      rewrite (IH s); [reflexivity | simpl in Hlen; lia | exact Hw].
    + apply andb_true_iff in Hw as [Hal Hw].
      rewrite Hal, (IH s); [reflexivity | lia | exact Hw].
Qed.

Lemma unescape_or_dup_decodes (allowed : ascii -> bool) (s : string) :
  well_escaped allowed s = true ->
  unescape_or_dup allowed s = Some (c_str (decode_escapes s)).
Proof.
  intros Hw. unfold unescape_or_dup, unescapeXml.
  rewrite (unescapeXml_loop_decodes allowed _ s (le_n _) Hw). reflexivity.
Qed.

(** The working part of [AccessOpen].  A location without the separator
    is refused with [VLC_EGENERIC] before the unzip library is touched.
    A location that holds it is cut at the first occurrence; when both
    halves are well escaped, the archive is opened under the decoding of
    the text before the separator and the file located under the
    decoding of the text after it, each decoded on its own and cut at a
    decoded NUL. *)
Lemma AccessOpen_decodes_halves :
  forall (allowed : ascii -> bool) (ZIP_SEP : string) (unzFile : Type)
         (unzOpen2 : string -> option unzFile)
         (unzLocateFile : unzFile -> string -> bool)
         (unzOpenCurrentFile : unzFile -> bool),
    let open :=
      AccessOpen allowed ZIP_SEP unzFile unzOpen2 unzLocateFile
        unzOpenCurrentFile in
    (forall loc, (forall a b, loc <> a ++ ZIP_SEP ++ b) ->
                 open loc = AccessOpenRet VLC_EGENERIC [])
    /\ (forall a b,
          (forall a' b', a ++ ZIP_SEP ++ b = a' ++ ZIP_SEP ++ b' ->
                         (String.length a <= String.length a')%nat) ->
          well_escaped allowed a = true ->
          well_escaped allowed b = true ->
          let pa := c_str (decode_escapes a) in
          let pb := c_str (decode_escapes b) in
          open (a ++ ZIP_SEP ++ b)
          = match unzOpen2 pa with
            | None => AccessOpenRet VLC_EGENERIC [UnzOpen2 pa]
            | Some zipFile =>
                if negb (unzLocateFile zipFile pb) then
                  AccessOpenRet VLC_EGENERIC
                    [UnzOpen2 pa; UnzLocateFile pb;
                     UnzCloseCurrentFile; UnzClose]
                else if negb (unzOpenCurrentFile zipFile) then
                  AccessOpenRet VLC_EGENERIC
                    [UnzOpen2 pa; UnzLocateFile pb;
                     UnzOpenCurrentFile; UnzCloseCurrentFile; UnzClose]
                else
                  AccessOpenRet VLC_SUCCESS
                    [UnzOpen2 pa; UnzLocateFile pb; UnzOpenCurrentFile]
            end).
Proof.
  intros allowed sep unzFile open2 locate opencur open. split.
  - intros loc Habs. unfold open, AccessOpen, split_mrl.
    destruct (strstr loc sep) as [i|] eqn:E; [|reflexivity].
    exfalso. exact (Habs _ _ (strstr_Some_split _ _ _ E)).
  - intros a b Hmin Ha Hb pa pb.
    assert (Hsplit : split_mrl sep (a ++ sep ++ b) = Some (a, b)).
    { unfold split_mrl, ZIP_SEP_LEN.
      rewrite (strstr_first_occurrence _ _ _ _ eq_refl Hmin).
      rewrite str_take_app, str_drop_add, str_drop_app, str_drop_app.
      reflexivity. }
    unfold open, AccessOpen.
    rewrite Hsplit, (unescape_or_dup_decodes allowed a Ha),
      (unescape_or_dup_decodes allowed b Hb).
    reflexivity.
Qed.

Example AccessOpen_plain_locator :
  AccessOpen allow_path_chars "!/" unit (fun _ => Some tt) (fun _ _ => true)
    (fun _ => true) "/archive.zip!/dir/file.txt"
  = AccessOpenRet VLC_SUCCESS
      [UnzOpen2 "/archive.zip"; UnzLocateFile "dir/file.txt";
       UnzOpenCurrentFile].
Proof.
  apply (proj2 (AccessOpen_decodes_halves allow_path_chars "!/" unit
                  (fun _ => Some tt) (fun _ _ => true) (fun _ => true))
           "/archive.zip" "dir/file.txt"); [|reflexivity|reflexivity].
  intros a' b' H.
  apply (strstr_Some_minimal "/archive.zip!/dir/file.txt" "!/" a' b');
    [reflexivity | exact H].
Qed.

Example AccessOpen_escaped_locator :
  AccessOpen allow_path_chars "!/" unit (fun _ => Some tt) (fun _ _ => true)
    (fun _ => true) "/my?20films.zip!/dir?2fclip?41.txt"
  = AccessOpenRet VLC_SUCCESS
      [UnzOpen2 "/my films.zip"; UnzLocateFile "dir/clipA.txt";
       UnzOpenCurrentFile].
Proof.
  apply (proj2 (AccessOpen_decodes_halves allow_path_chars "!/" unit
                  (fun _ => Some tt) (fun _ _ => true) (fun _ => true))
           "/my?20films.zip" "dir?2fclip?41.txt"); [|reflexivity|reflexivity].
  intros a' b' H.
  apply (strstr_Some_minimal "/my?20films.zip!/dir?2fclip?41.txt" "!/" a' b');
    [reflexivity | exact H].
Qed.

(** An escape that starts with [0x]: [sscanf] stores 0, and the NUL ends
    the archive name. *)
Example AccessOpen_0x_escape :
  AccessOpen allow_path_chars "!/" unit (fun _ => Some tt) (fun _ _ => true)
    (fun _ => true) "/a?0x.zip!/f"
  = AccessOpenRet VLC_SUCCESS
      [UnzOpen2 "/a"; UnzLocateFile "f"; UnzOpenCurrentFile].
Proof. reflexivity. Qed.

Example AccessOpen_no_separator :
  AccessOpen allow_path_chars "!/" unit (fun _ => Some tt) (fun _ _ => true)
    (fun _ => true) "/plain.txt" = AccessOpenRet VLC_EGENERIC [].
Proof. reflexivity. Qed.

(** C7.  [AccessOpen] does not decode each half of every location on its
    own.  "/a?4!/f" holds the separator once and is cut into "/a?4" and
    "f"; the archive half ends inside an escape, so it is not a valid
    encoding and the raw text "/a?4" is what should be opened.  The
    decoder does not give NULL on it: after the single digit it steps
    over the terminator that replaced the separator and goes on
    decoding the bytes beyond the archive half into a buffer sized for
    the half alone, so the behaviour of the call is undefined where
    "/a?4" should be opened and "f" located.  With the escape
    complete, "/a?41!/f", the two halves are decoded on their own and the
    archive "/aA" is opened for the file "f". *)
Theorem AccessOpen_truncated_escape :
  forall (allowed : ascii -> bool) (unzFile : Type)
         (unzOpen2 : string -> option unzFile)
         (unzLocateFile : unzFile -> string -> bool)
         (unzOpenCurrentFile : unzFile -> bool),
    allowed "/"%char = true -> allowed "a"%char = true ->
    allowed "f"%char = true ->
    let open :=
      AccessOpen allowed "!/" unzFile unzOpen2 unzLocateFile
        unzOpenCurrentFile in
    (split_mrl "!/" "/a?4!/f" = Some ("/a?4", "f")
     /\ well_escaped allowed "/a?4" = false
     /\ unescapeXml allowed "/a?4" = UnescapeUB
     /\ unescape_or_dup allowed "f" = Some "f"
     /\ open "/a?4!/f" = AccessOpenUB)
    /\ (split_mrl "!/" "/a?41!/f" = Some ("/a?41", "f")
        /\ exists i_ret calls,
             open "/a?41!/f" = AccessOpenRet i_ret (UnzOpen2 "/aA" :: calls)
             /\ forall zipFile,
                  unzOpen2 "/aA" = Some zipFile ->
                  exists calls', calls = UnzLocateFile "f" :: calls').
Proof.
  intros allowed unzFile open2 locate opencur Hs Ha Hf open.
  assert (Hraw : unescape_or_dup allowed "f" = Some "f").
  { unfold unescape_or_dup, unescapeXml. cbn. rewrite Hf. reflexivity. }
  split.
  - split; [reflexivity|]. split; [cbn; rewrite Hs, Ha; reflexivity|].
    assert (Hub : unescapeXml allowed "/a?4" = UnescapeUB).
    { unfold unescapeXml. cbn. rewrite Hs, Ha. reflexivity. }
    split; [exact Hub|]. split; [exact Hraw|].
    unfold open, AccessOpen.
    change (split_mrl "!/" "/a?4!/f") with (Some ("/a?4", "f")).
    cbv beta iota. unfold unescape_or_dup at 1. rewrite Hub. reflexivity.
  - split; [reflexivity|].
    assert (Hdec : unescape_or_dup allowed "/a?41" = Some "/aA").
    { unfold unescape_or_dup, unescapeXml. cbn. rewrite Hs, Ha. reflexivity. }
    unfold open, AccessOpen.
    change (split_mrl "!/" "/a?41!/f") with (Some ("/a?41", "f")).
    cbv beta iota. rewrite Hdec, Hraw.
    destruct (open2 "/aA") as [zf|] eqn:Eo.
    + destruct (locate zf "f"); simpl;
        [destruct (opencur zf); simpl|];
        (eexists; eexists; split; [reflexivity|]);
        intros zf' _; eexists; reflexivity.
    + eexists; eexists; split; [reflexivity|]. intros zf' Hzf. discriminate.
Qed.

Lemma AccessOpen_truncated_escape_witness :
  AccessOpen allow_path_chars "!/" unit (fun _ => Some tt) (fun _ _ => true)
    (fun _ => true) "/a?4!/f" = AccessOpenUB.
Proof.
  destruct (AccessOpen_truncated_escape allow_path_chars unit
              (fun _ => Some tt) (fun _ _ => true) (fun _ => true)
              eq_refl eq_refl eq_refl) as [(_ & _ & _ & _ & Hub) _].
  exact Hub.
Defined.

(* --------------------------------------------------------------------- *)
(** ** ZipIO_Seek                                                         *)
(* --------------------------------------------------------------------- *)

Lemma to_int64_add_l (a b : Z) : to_int64 (to_int64 a + b) = to_int64 (a + b).
Proof.
  unfold to_int64.
  replace ((a + 2 ^ 63) mod 2 ^ 64 - 2 ^ 63 + b + 2 ^ 63)
    with ((a + 2 ^ 63) mod 2 ^ 64 + b) by ring.
  rewrite Zplus_mod_idemp_l. f_equal. f_equal. ring.
Qed.

Lemma to_int64_small (z : Z) : - 2 ^ 63 <= z < 2 ^ 63 -> to_int64 z = z.
Proof.
  intros H. unfold to_int64. rewrite Z.mod_small; lia.
Qed.

(** C8.  For the three origins the position is the offset plus the
    current stream offset, zero, or the stream size, taken as an
    [int64_t]; a negative position is answered with -1 and the stream is
    left alone; any other position is handed to [vlc_stream_Seek] and
    answered with 0, whatever that call reports. *)
Theorem ZipIO_Seek_position :
  forall (stream_t : Type) (vlc_stream_Tell stream_Size : stream_t -> Z)
         (vlc_stream_Seek : stream_t -> Z -> vlc_ret * stream_t)
         (stream : stream_t) (offset origin : Z),
    origin = SEEK_CUR \/ origin = SEEK_SET \/ origin = SEEK_END ->
    let base :=
      if origin =? SEEK_CUR then vlc_stream_Tell stream
      else if origin =? SEEK_SET then 0
      else stream_Size stream in
    let pos := to_int64 (offset + base) in
    let seek :=
      ZipIO_Seek stream_t vlc_stream_Tell stream_Size vlc_stream_Seek
        stream offset origin in
    (- 2 ^ 63 <= offset + base < 2 ^ 63 -> pos = offset + base)
    /\ (pos < 0 -> seek = (-1, stream))
    /\ (0 <= pos -> seek = (0, snd (vlc_stream_Seek stream pos))).
Proof.
  intros stream_t tell size sseek stream offset origin Horigin base pos seek.
  split; [exact (to_int64_small _)|].
  assert (Hseek : seek = if pos <? 0 then (-1, stream)
                         else (0, snd (sseek stream pos))).
  { unfold seek, ZipIO_Seek, pos, base.
    destruct Horigin as [-> | [-> | ->]]; simpl;
      rewrite ?to_int64_add_l, ?Z.add_0_r; reflexivity. }
  rewrite Hseek. split; intros H.
  - destruct (Z.ltb_spec pos 0); [reflexivity | lia].
  - destruct (Z.ltb_spec pos 0); [lia | reflexivity].
Qed.

Lemma ZipIO_Seek_position_witness :
  ZipIO_Seek Z (fun s => s) (fun _ => fixed_size) failing_seek 40 10 SEEK_CUR
  = (0, 40)
  /\ ZipIO_Seek Z (fun s => s) (fun _ => fixed_size) failing_seek
       40 (2 ^ 64 - 50) SEEK_CUR = (-1, 40)
  /\ to_int64 (0 + fixed_size) = 0 + fixed_size.
Proof.
  pose proof (ZipIO_Seek_position Z (fun s => s) (fun _ => fixed_size)
                failing_seek 40 10 SEEK_CUR (or_introl eq_refl)) as Hfwd.
  pose proof (ZipIO_Seek_position Z (fun s => s) (fun _ => fixed_size)
                failing_seek 40 (2 ^ 64 - 50) SEEK_CUR (or_introl eq_refl))
    as Hback.
  pose proof (ZipIO_Seek_position Z (fun s => s) (fun _ => fixed_size)
                failing_seek 40 0 SEEK_END (or_intror (or_intror eq_refl)))
    as Hend.
  cbv zeta in Hfwd, Hback, Hend.
  destruct Hfwd as (_ & _ & Hok). destruct Hback as (_ & Hneg & _).
  destruct Hend as (Hexact & _).
  split; [|split].
  - apply Hok. vm_compute. discriminate.
  - apply Hneg. vm_compute. reflexivity.
  - apply Hexact. vm_compute. split; [discriminate | reflexivity].
Defined.

(* --------------------------------------------------------------------- *)
(** ** LockExtension under interleaving                                   *)
(* --------------------------------------------------------------------- *)

Lemma lock_inv_enter (s : ext_sync) :
  running_lock s <> LockedByCaller -> lock_inv (enter_lock s).
Proof. intros H. split; [reflexivity | exact H]. Qed.

Lemma lock_inv_step (c : lock_call) (sl : slot) :
  lock_inv c -> lock_inv (sched_step c sl).
Proof.
  destruct c as [p [ex lk] sn]. unfold lock_inv.
  destruct sl as [|[b| |]]; destruct p as [| | |[|]]; destruct ex;
    destruct lk; simpl; intros [Hs Hl]; subst; simpl;
    try congruence; (split; [auto | congruence]).
Qed.

Lemma lock_inv_run (sched : list slot) (c : lock_call) :
  lock_inv c -> lock_inv (run_schedule sched c).
Proof.
  revert c. induction sched as [|sl sched IH]; intros c H; simpl;
    [exact H | apply IH, lock_inv_step, H].
Qed.

(** C3.  Whatever the other threads do, a call of [LockExtension] that
    reads [b_exiting] as true, at entry or right after it has taken the
    mutex, has returned [false] at that very step and does not hold the
    running lock; in particular a call entered with the flag set returns
    [false] at once, the lock untouched. *)
Theorem LockExtension_refuses_when_exiting :
  forall (sched : list slot) (s : ext_sync),
    running_lock s <> LockedByCaller ->
    let c := run_schedule sched (enter_lock s) in
    (In true (seen c) ->
     pc c = LockReturned false
     /\ running_lock (shared c) <> LockedByCaller)
    /\ (b_exiting s = true -> LockExtension s = Some (false, s))
    /\ (forall s', b_exiting s' = true ->
          LockExtension_step LockRecheck s'
          = Some (LockReturned false, vlc_mutex_unlock s')).
Proof.
  intros sched s Hfree c. split; [|split].
  - pose proof (lock_inv_run sched _ (lock_inv_enter s Hfree)) as Hinv.
    fold c in Hinv. unfold lock_inv in Hinv.
    destruct (pc c) as [| | |[|]]; destruct Hinv as [Hs Hl]; intros Hin.
    + rewrite Hs in Hin. destruct Hin.
    + rewrite Hs in Hin. simpl in Hin. intuition discriminate.
    + rewrite Hs in Hin. simpl in Hin. intuition discriminate.
    + rewrite Hs in Hin. simpl in Hin. intuition discriminate.
    + split; [reflexivity | exact Hl].
  - intros Hex. unfold LockExtension. simpl. rewrite Hex. reflexivity.
  - intros s' Hex. simpl. rewrite Hex. reflexivity.
Qed.

Lemma LockExtension_refuses_when_exiting_witness :
  (pc (run_schedule [Caller; Other (EnvSetExiting true); Caller; Caller]
         (enter_lock idle)) = LockReturned false
   /\ running_lock
        (shared (run_schedule
                   [Caller; Other (EnvSetExiting true); Caller; Caller]
                   (enter_lock idle))) <> LockedByCaller)
  /\ LockExtension {| b_exiting := true; running_lock := LockedByOther |}
     = Some (false, {| b_exiting := true; running_lock := LockedByOther |}).
Proof.
  split.
  - apply (LockExtension_refuses_when_exiting
             [Caller; Other (EnvSetExiting true); Caller; Caller] idle).
    + discriminate.
    + simpl. right. left. reflexivity.
  - apply (LockExtension_refuses_when_exiting []
             {| b_exiting := true; running_lock := LockedByOther |}).
    + discriminate.
    + reflexivity.
Defined.

(** C4, as stated, fails: a caller that entered with the flag clear and
    waits for the mutex is refused when the flag is set while it waits;
    once the mutex is free it takes it, reads the flag again, releases
    the mutex and returns [false]. *)
Lemma LockExtension_blocked_caller_refused :
  (pc blocked_call = LockAcquire /\ seen blocked_call = [false])
  /\ pc (run_schedule
           [Other (EnvSetExiting true); Other EnvUnlock; Caller; Caller]
           blocked_call) = LockReturned false
  /\ running_lock
       (shared (run_schedule
                  [Other (EnvSetExiting true); Other EnvUnlock; Caller; Caller]
                  blocked_call)) = Unlocked.
Proof. repeat split. Qed.

(** C4, amended.  A call of [LockExtension] returns [true] exactly when
    it read the flag as false twice, at entry and right after taking the
    mutex, and it then holds the running lock, whatever the other threads
    do afterwards; a caller that waited for the mutex and gets it returns
    [true] if the flag is clear at that moment and [false] if it was set
    in the meantime. *)
Theorem LockExtension_succeeds_iff_clear_at_recheck :
  forall (sched : list slot) (s : ext_sync),
    running_lock s <> LockedByCaller ->
    let c := run_schedule sched (enter_lock s) in
    (forall ok,
        pc c = LockReturned ok ->
        (ok = true <-> seen c = [false; false])
        /\ (ok = true -> running_lock (shared c) = LockedByCaller))
    /\ (forall s' sn,
          running_lock s' = Unlocked ->
          pc (run_schedule [Caller; Caller]
                {| pc := LockAcquire; shared := s'; seen := sn |})
          = LockReturned (negb (b_exiting s'))).
Proof.
  intros sched s Hfree c. split.
  - pose proof (lock_inv_run sched _ (lock_inv_enter s Hfree)) as Hinv.
    fold c in Hinv. unfold lock_inv in Hinv.
    intros ok Hpc. rewrite Hpc in Hinv.
    destruct ok; destruct Hinv as [Hs Hl].
    + split; [split; auto | auto].
    + split; [|discriminate].
      split; [discriminate|].
      intros Hff. destruct Hs as [Hs|Hs]; rewrite Hs in Hff; discriminate.
  - intros [ex lk] sn Hlk. simpl in Hlk. subst lk.
    destruct ex; reflexivity.
Qed.

Lemma LockExtension_succeeds_iff_clear_at_recheck_witness :
  ((true = true <->
    seen (run_schedule [Caller; Caller; Caller; Other (EnvSetExiting true)]
            (enter_lock idle)) = [false; false])
   /\ (true = true ->
       running_lock
         (shared (run_schedule [Caller; Caller; Caller; Other (EnvSetExiting true)]
                    (enter_lock idle))) = LockedByCaller))
  /\ pc (run_schedule [Caller; Caller]
           {| pc := LockAcquire; shared := idle; seen := [false] |})
     = LockReturned (negb (b_exiting idle)).
Proof.
  pose proof (LockExtension_succeeds_iff_clear_at_recheck
                [Caller; Caller; Caller; Other (EnvSetExiting true)] idle) as H.
  cbv zeta in H. destruct H as [Hret Hwait]; [discriminate|].
  split.
  - apply Hret. reflexivity.
  - apply Hwait. reflexivity.
Defined.

(* --------------------------------------------------------------------- *)
(** ** The extension runtime                                              *)
(* --------------------------------------------------------------------- *)

(** Unfolds the runtime's plumbing. *)
Ltac ext_unfold :=
  unfold lua_ExtensionDeactivate, lua_ExtensionTriggerMenu,
    lua_ExecuteFunction, GetLuaState, getglobal, pcall, lock_extension,
    unlock_extension, set_L, set_sync, emit, get_ext, crash, bind, ret
    in *.

Lemma bind_Done {M A B} (c : ext_m M A) (k : A -> ext_m M B) w a w' :
  c w = Done a w' -> bind c k w = k a w'.
Proof. intros H. unfold bind. rewrite H. reflexivity. Qed.

(** An extension that has a Lua state gets it back, nothing else
    happening. *)
Lemma GetLuaState_live (M : lua_machine) (w : world M) (l : lua_State M) :
  L (w_ext w) = Some l -> GetLuaState M w = Done (Some l) w.
Proof. intros H. ext_unfold. rewrite H. reflexivity. Qed.

(** [GetLuaState] always returns; the handle it gives is the one the
    extension holds afterwards, unless the state could not be made or
    the script did not load; name, capabilities and lock are left alone;
    and the interpreter is touched only to make a state and run the
    script in it. *)
Lemma GetLuaState_cases (M : lua_machine) (w : world M) :
  exists r w',
    GetLuaState M w = Done r w'
    /\ L (w_ext w') = r
    /\ psz_name (w_ext w') = psz_name (w_ext w)
    /\ i_capabilities (w_ext w') = i_capabilities (w_ext w)
    /\ p_sync (w_ext w') = p_sync (w_ext w)
    /\ (w_log w' = w_log w
        \/ (L (w_ext w) = None
            /\ (w_log w' = (w_log w ++ [LuaNewState])%list
                \/ w_log w'
                   = (w_log w ++ [LuaNewState;
                                  LuaDoFile (psz_name (w_ext w))])%list))).
Proof.
  destruct w as [e log]. ext_unfold. simpl.
  destruct (L e) as [l|] eqn:El; simpl.
  - exists (Some l), {| w_ext := e; w_log := log |}. simpl. auto 10.
  - destruct (luaL_newstate M) as [l0|]; simpl.
    + destruct (luaL_dofile M (register_libs M true l0) (psz_name e))
        as [[|] l2]; simpl;
        (eexists; eexists; split; [reflexivity|]); simpl;
        rewrite <- ?app_assoc; simpl; auto 10.
    + eexists; eexists; split; [reflexivity|]; simpl; auto 10.
Qed.

(** C2.  Whatever state the extension is in and whatever the script
    does when its "deactivate" function is looked up and called,
    [lua_ExtensionDeactivate] returns, and the extension has no Lua state
    afterwards. *)
Theorem lua_ExtensionDeactivate_clears_state :
  forall (M : lua_machine) (w : world M),
  exists (i_ret : vlc_ret) (w' : world M),
    lua_ExtensionDeactivate M w = Done i_ret w' /\ L (w_ext w') = None.
Proof.
  intros M [e log]. ext_unfold. simpl.
  destruct (L e) as [l|] eqn:El; simpl.
  - rewrite El. simpl.
    destruct (lua_isfunction (lua_getglobal M l "deactivate")); simpl;
      [|eexists; eexists; split; reflexivity].
    destruct (lua_pcall M l (lua_getglobal M l "deactivate") [])
      as [[r|] l']; simpl; rewrite El; simpl;
      eexists; eexists; split; reflexivity.
  - eexists; eexists; split; [reflexivity | exact El].
Qed.

(** C9.  [lua_ExtensionTriggerMenu] returns [VLC_EGENERIC] on every
    input; so it does when the extension has a Lua state, the global
    "trigger_menu" is a function and the call with the id completes
    without raising, after having made that call. *)
Theorem lua_ExtensionTriggerMenu_always_fails :
  forall (M : lua_machine) (id : Z) (w : world M),
    (exists w', lua_ExtensionTriggerMenu M id w = Done VLC_EGENERIC w')
    /\ (forall l f r l',
          L (w_ext w) = Some l ->
          lua_getglobal M (luaopen_dialog M l) "trigger_menu" = f ->
          lua_isfunction f = true ->
          lua_pcall M (luaopen_dialog M l) f [LNumber id] = (Some r, l') ->
          exists w',
            lua_ExtensionTriggerMenu M id w = Done VLC_EGENERIC w'
            /\ w_log w'
               = (w_log w ++ [LuaOpenDialog; LuaGetGlobal "trigger_menu";
                              LuaPCall f [LNumber id]])%list
            /\ L (w_ext w') = Some l').
Proof.
  intros M id [e log]. split.
  - unfold lua_ExtensionTriggerMenu.
    destruct (GetLuaState_cases M {| w_ext := e; w_log := log |})
      as (r & [e1 log1] & Hget & Hr & _).
    rewrite (bind_Done _ _ _ _ _ Hget). simpl in Hr.
    destruct r as [l|]; [|eexists; reflexivity].
    ext_unfold. simpl. rewrite Hr. simpl.
    destruct (lua_isfunction
                (lua_getglobal M (luaopen_dialog M l) "trigger_menu"));
      simpl; [|eexists; reflexivity].
    destruct (lua_pcall M (luaopen_dialog M l)
                (lua_getglobal M (luaopen_dialog M l) "trigger_menu")
                [LNumber id]) as [[r|] l']; simpl;
      eexists; reflexivity.
  - intros l f r l' El Hf Hfun Hcall. ext_unfold. simpl in *.
    rewrite El. simpl. rewrite El. simpl. rewrite Hf, Hfun. simpl.
    rewrite Hcall. simpl.
    eexists. split; [reflexivity|]. simpl.
    split; [rewrite <- !app_assoc; reflexivity | reflexivity].
Qed.

Lemma lua_ExtensionTriggerMenu_always_fails_witness :
  exists w',
    lua_ExtensionTriggerMenu sample_machine 3
      (sample_world EXT_HAS_MENU (Some tt)) = Done VLC_EGENERIC w'
    /\ w_log w'
       = ([] ++ [LuaOpenDialog; LuaGetGlobal "trigger_menu";
                 LuaPCall (LFunction 2) [LNumber 3]])%list
    /\ L (w_ext w') = Some tt.
Proof.
  destruct (lua_ExtensionTriggerMenu_always_fails sample_machine 3
              (sample_world EXT_HAS_MENU (Some tt))) as [_ Hcalled].
  apply (Hcalled tt (LFunction 2) LNil tt); reflexivity.
Defined.

(** C1, as stated, fails: for an activated extension without the
    has-menu flag that has no Lua state yet, [GetMenuEntries] returns
    [VLC_EGENERIC] only after [GetLuaState] has made a state and run the
    script in it; the extension keeps that state. *)
Lemma GetMenuEntries_without_menu_runs_script :
  Z.land (i_capabilities (w_ext (sample_world 0 None))) EXT_HAS_MENU = 0
  /\ GetMenuEntries sample_machine sample_manager (sample_world 0 None)
     = Done (VLC_EGENERIC, no_menu)
         {| w_ext := new_extension sample_machine "ext.lua" 0 (Some tt) idle;
            w_log := [LuaNewState; LuaDoFile "ext.lua"] |}.
Proof. split; reflexivity. Qed.

Lemma LockExtension_cases (s : ext_sync) :
  match LockExtension s with
  | Some (ok, s') =>
      b_exiting s' = b_exiting s
      /\ (ok = false -> s' = s /\ b_exiting s = true)
  | None => running_lock s <> Unlocked
  end.
Proof.
  destruct s as [[|] [| |]]; simpl; repeat split; auto; discriminate.
Qed.

(** C1, amended.  For an extension without the has-menu flag,
    [GetMenuEntries] never crashes, never looks up or calls "menu", and
    returns [VLC_EGENERIC] with no array allocated whenever it returns;
    what it does to the interpreter is settled by where the capability
    test stands, after [GetLuaState]:
    - an extension that is not activated, or is exiting, is refused
      before the lock and nothing changes;
    - otherwise the call waits for the running lock while it is held;
    - with the lock free and a live Lua state, nothing changes;
    - with the lock free and no Lua state, [GetLuaState] runs first:
      a state is asked for and, when one is made, the script is run in
      it; the state is kept when the script loaded and dropped
      otherwise, and the lock is released. *)
Theorem GetMenuEntries_without_menu :
  forall (M : lua_machine) (p_mgr : extensions_manager M) (w : world M),
    Z.land (i_capabilities (w_ext w)) EXT_HAS_MENU = 0 ->
    if negb (IsActivated p_mgr (w_ext w)) || b_exiting (p_sync (w_ext w))
    then GetMenuEntries M p_mgr w = Done (VLC_EGENERIC, no_menu) w
    else
      match running_lock (p_sync (w_ext w)) with
      | Unlocked =>
          match L (w_ext w) with
          | Some _ =>
              GetMenuEntries M p_mgr w = Done (VLC_EGENERIC, no_menu) w
          | None =>
              exists w',
                GetMenuEntries M p_mgr w = Done (VLC_EGENERIC, no_menu) w'
                /\ p_sync (w_ext w') = p_sync (w_ext w)
                /\ i_capabilities (w_ext w') = i_capabilities (w_ext w)
                /\ psz_name (w_ext w') = psz_name (w_ext w)
                /\ match luaL_newstate M with
                   | None =>
                       w_log w' = (w_log w ++ [LuaNewState])%list
                       /\ L (w_ext w') = None
                   | Some l0 =>
                       w_log w'
                       = (w_log w
                          ++ [LuaNewState; LuaDoFile (psz_name (w_ext w))])%list
                       /\ L (w_ext w')
                          = (let (failed, l2) :=
                               luaL_dofile M (register_libs M true l0)
                                 (psz_name (w_ext w)) in
                             if failed then None else Some l2)
                   end
          end
      | _ => GetMenuEntries M p_mgr w = Blocked
      end.
Proof.
  intros M p_mgr [[name title author descr url version caps l [ex lk]] log]
    Hcaps.
  cbn [w_ext w_log i_capabilities p_sync b_exiting running_lock L psz_name]
    in *.
  destruct ex, lk, l as [l|];
    (destruct (IsActivated p_mgr _) eqn:Hact; cbn [negb orb];
     unfold GetMenuEntries; ext_unfold;
     cbn -[Z.land EXT_HAS_MENU IsActivated]; rewrite Hact;
     cbn -[Z.land EXT_HAS_MENU IsActivated]; try reflexivity).
  - rewrite Hcaps. reflexivity.
  - destruct (luaL_newstate M) as [l0|]; cbn -[Z.land EXT_HAS_MENU].
    + destruct (luaL_dofile M (register_libs M true l0) name)
        as [[|] l2]; cbn -[Z.land EXT_HAS_MENU]; rewrite Hcaps; cbn;
        (eexists; split; [reflexivity|]); cbn;
        rewrite <- ?app_assoc; cbn; auto 10.
    + rewrite Hcaps. cbn. eexists; split; [reflexivity|]; cbn; auto 10.
Qed.

Lemma GetMenuEntries_without_menu_witness :
  Z.land (i_capabilities (w_ext (sample_world EXT_TRIGGER_ONLY None)))
    EXT_HAS_MENU = 0
  /\ exists w',
       GetMenuEntries sample_machine sample_manager
         (sample_world EXT_TRIGGER_ONLY None)
       = Done (VLC_EGENERIC, no_menu) w'
       /\ w_log w' = [LuaNewState; LuaDoFile "ext.lua"]
       /\ L (w_ext w') = Some tt.
Proof.
  split; [reflexivity|].
  destruct (GetMenuEntries_without_menu sample_machine sample_manager
              (sample_world EXT_TRIGGER_ONLY None) eq_refl)
    as (w' & Hrun & _ & _ & _ & Hlog & Hstate).
  exists w'. split; [exact Hrun|]. split; [exact Hlog | exact Hstate].
Defined.


(* --------------------------------------------------------------------- *)
(** ** GetMenuEntries: the identifiers                                    *)
(* --------------------------------------------------------------------- *)

Lemma land_65535 (id : Z) : Z.land id 65535 = id mod 2 ^ 16.
Proof. change 65535 with (Z.ones 16). apply Z.land_ones. lia. Qed.

Lemma to_uint16_land (id : Z) : to_uint16 (Z.land id 65535) = Z.land id 65535.
Proof. rewrite land_65535. unfold to_uint16. apply Z.mod_mod. lia. Qed.

Lemma menu_entry_ok_checks (M : lua_machine) (key value : lua_value) :
  menu_entry_ok M (key, value) ->
  exists id title,
    luaL_checkinteger M key = Some id
    /\ luaL_checkstring M value = Some title.
Proof.
  intros [Hk Hv]. simpl in *.
  destruct key as [| | n | s | |]; simpl in Hk; try discriminate;
    destruct value as [| | m | t | |]; simpl in Hv; try discriminate;
    simpl; try (destruct (lua_str2number M s); [|discriminate]);
    eexists; eexists; split; reflexivity.
Qed.

Lemma walk_menu_ids (M : lua_machine)
  (entries : list (lua_value * lua_value)) :
  forall (i_size i_idx : nat) (titles : list (option string)) (ids : list Z),
    Forall (menu_entry_ok M) entries ->
    (i_idx + length entries <= i_size)%nat ->
    (i_size < length ids)%nat ->
    exists titles' ids',
      walk_menu M entries i_size i_idx titles ids = WalkDone titles' ids'
      /\ length ids' = length ids
      /\ (forall j, (j < i_idx)%nat -> ids' !! j = ids !! j)
      /\ forall j key value,
           entries !! j = Some (key, value) ->
           exists id,
             luaL_checkinteger M key = Some id
             /\ ids' !! (i_idx + j)%nat = Some (Z.land id 65535).
Proof.
  induction entries as [|[key value] rest IH];
    intros i_size i_idx titles ids Hok Hfit Hlen.
  - exists titles, ids. simpl. repeat split; auto.
    intros j key value Hj. discriminate.
  - apply Forall_cons in Hok as [Hkv Hrest]. simpl in Hfit.
    destruct (menu_entry_ok_checks M key value Hkv) as (id & title & Hid & Ht).
    destruct Hkv as [Hk Hv]. simpl in Hk, Hv.
    cbn [walk_menu].
    destruct (Nat.ltb_spec i_idx i_size) as [Hlt|]; [|lia].
    rewrite Hk, Hv, Hid, Ht. cbn [negb orb].
    destruct (IH i_size (S i_idx) (<[i_idx := Some title]> titles)
                (<[i_idx := to_uint16 (Z.land id 65535)]> ids))
      as (titles' & ids' & Hwalk & Hl & Hkeep & Hset);
      [exact Hrest | lia | rewrite length_insert; exact Hlen |].
    exists titles', ids'. split; [exact Hwalk|].
    rewrite length_insert in Hl. split; [exact Hl|]. split.
    + intros j Hj. rewrite Hkeep by lia.
      apply list_lookup_insert_ne. lia.
    + intros [|j] key' value' Hj.
      * injection Hj as <- <-. exists id. split; [exact Hid|].
        rewrite Nat.add_0_r, Hkeep by lia.
        rewrite list_lookup_insert_eq by lia.
        rewrite to_uint16_land. reflexivity.
      * destruct (Hset j key' value' Hj) as (id' & Hid' & Hids').
        exists id'. split; [exact Hid'|].
        rewrite <- Hids'. f_equal. lia.
Qed.

(** C10.  When the extension is activated, not exiting, unlocked, has a
    Lua state and the has-menu flag, and "menu" returns a table whose
    entries all have a numeric key and a string value (and that is no
    longer than [lua_objlen] says), [GetMenuEntries] succeeds, and the
    cell of [pi_ids] for each entry holds the key's low 16 bits, that is
    the key modulo 2^16: no key is refused for being too large. *)
Theorem GetMenuEntries_truncates_ids :
  forall (M : lua_machine) (p_mgr : extensions_manager M) (w : world M)
         (l l' : lua_State M) (f : lua_value) (len : nat)
         (entries : list (lua_value * lua_value)),
    IsActivated p_mgr (w_ext w) = true ->
    p_sync (w_ext w) = idle ->
    L (w_ext w) = Some l ->
    Z.land (i_capabilities (w_ext w)) EXT_HAS_MENU <> 0 ->
    lua_getglobal M l "menu" = f ->
    lua_isfunction f = true ->
    lua_pcall M l f [] = (Some (LTable len entries), l') ->
    Forall (menu_entry_ok M) entries ->
    (length entries <= len)%nat ->
    exists titles ids w',
      GetMenuEntries M p_mgr w
      = Done (VLC_SUCCESS, menu_arrays titles ids) w'
      /\ forall i key value,
           entries !! i = Some (key, value) ->
           exists id,
             luaL_checkinteger M key = Some id
             /\ ids !! i = Some (Z.land id 65535)
             /\ Z.land id 65535 = id mod 2 ^ 16.
Proof.
  intros M p_mgr [e log] l l' f len entries Hact Hsync Hl Hcaps Hf Hfun
    Hcall Hok Hlen.
  cbn [w_ext w_log] in *.
  destruct (walk_menu_ids M entries len O (replicate (S len) None)
              (replicate (S len) 0) Hok)
    as (titles & ids & Hwalk & _ & _ & Hids);
    [simpl; lia | rewrite length_replicate; lia |].
  exists titles, ids.
  unfold GetMenuEntries.
  unfold bind at 1. unfold get_ext at 1. cbn [w_ext w_log].
  rewrite Hact. cbn [negb].
  unfold bind at 1. unfold lock_extension. unfold bind at 1.
  unfold get_ext at 1. cbn [w_ext w_log]. rewrite Hsync.
  cbn [LockExtension LockExtension_run LockExtension_step idle b_exiting
       running_lock vlc_mutex_lock set_lock].
  unfold bind at 1. unfold set_sync at 1. cbn [w_ext w_log].
  unfold ret at 1. cbn [negb].
  match goal with
  | |- context [bind (GetLuaState M) _ ?w1] =>
      rewrite (bind_Done _ _ w1 _ _ (GetLuaState_live M w1 l Hl))
  end.
  unfold bind at 1. unfold get_ext at 1.
  cbn [w_ext w_log i_capabilities].
  destruct (Z.eqb_spec (Z.land (i_capabilities e) EXT_HAS_MENU) 0)
    as [Hz|_]; [contradiction|].
  unfold getglobal, pcall.
  unfold bind, emit, get_ext, set_L, ret, unlock_extension, set_sync.
  cbn [w_ext w_log L snd fst]. rewrite Hf, Hfun. cbn [negb].
  rewrite Hcall. cbn -[walk_menu replicate].
  rewrite Hl. cbn -[walk_menu replicate].
  rewrite Hwalk. cbn. eexists. split; [reflexivity|].
  intros i key value Hi.
  destruct (Hids i key value Hi) as (id & Hid & Hcell).
  exists id. repeat split; [exact Hid | exact Hcell | apply land_65535].
Qed.

Lemma GetMenuEntries_truncates_ids_witness :
  exists titles ids w',
    GetMenuEntries sample_machine sample_manager
      (sample_world EXT_HAS_MENU (Some tt))
    = Done (VLC_SUCCESS, menu_arrays titles ids) w'
    /\ ids !! O = Some 4464.
Proof.
  destruct (GetMenuEntries_truncates_ids sample_machine sample_manager
              (sample_world EXT_HAS_MENU (Some tt)) tt tt (LFunction 1)
              (Z.to_nat 70000) [(LNumber 70000, LString "Settings")])
    as (titles & ids & w' & Hrun & Hids).
  - reflexivity.
  - reflexivity.
  - reflexivity.
  - discriminate.
  - reflexivity.
  - reflexivity.
  - reflexivity.
  - repeat constructor.
  - simpl. lia.
  - exists titles, ids, w'. split; [exact Hrun|].
    destruct (Hids O (LNumber 70000) (LString "Settings") eq_refl)
      as (id & Hid & Hcell & _).
    injection Hid as <-. exact Hcell.
Defined.

(* --------------------------------------------------------------------- *)
(** ** ScanLuaCallback: the capability flags                              *)
(* --------------------------------------------------------------------- *)

Lemma find_capability_flag (psz_cap : string) :
  match find_capability ppsz_capabilities O psz_cap with
  | Some i_cap => Z.shiftl 1 (Z.of_nat i_cap) = capability_flag psz_cap
  | None => capability_flag psz_cap = 0
  end.
Proof.
  unfold capability_flag, ppsz_capabilities. cbn [find_capability].
  destruct (String.eqb "menu" psz_cap); [reflexivity|].
  destruct (String.eqb "trigger" psz_cap); [reflexivity|].
  destruct (String.eqb "input-listener" psz_cap); reflexivity.
Qed.

Lemma scan_capabilities_bits (M : lua_machine)
  (entries : list (lua_value * lua_value)) :
  forall (names : list string) (caps : Z),
    map (fun kv => luaL_checkstring M (snd kv)) entries = map Some names ->
    scan_capabilities M entries caps
    = Some (Z.lor caps (capability_bits names)).
Proof.
  induction entries as [|[key value] rest IH]; intros names caps Hnames.
  - destruct names; [|discriminate]. simpl. rewrite Z.lor_0_r. reflexivity.
  - destruct names as [|n names]; [discriminate|].
    simpl in Hnames. injection Hnames as Hn Hrest.
    cbn [scan_capabilities]. rewrite Hn.
    pose proof (find_capability_flag n) as Hflag.
    destruct (find_capability ppsz_capabilities O n) as [i_cap|].
    + rewrite (IH names _ Hrest), Hflag. simpl.
      rewrite Z.lor_assoc. reflexivity.
    + rewrite (IH names _ Hrest). simpl. rewrite Hflag, Z.lor_0_l.
      reflexivity.
Qed.

Lemma flag_high_bit (flag : Z) (i : nat) :
  0 <= flag < 8 -> Z.testbit flag (Z.of_nat (S (S (S i)))) = false.
Proof.
  intros H. destruct (Z.eq_dec flag 0) as [->|Hnz]; [apply Z.bits_0|].
  apply Z.bits_above_log2; [lia|].
  assert (Z.log2 flag < 3) by (apply Z.log2_lt_pow2; lia). lia.
Qed.

(** The bit at a vocabulary position is set exactly when the name at
    that position is among the names. *)
Lemma capability_bits_testbit (names : list string) (i : nat) :
  Z.testbit (capability_bits names) (Z.of_nat i) = true
  <-> exists name, ppsz_capabilities !! i = Some name /\ In name names.
Proof.
  induction names as [|n names IH].
  - simpl. rewrite Z.bits_0. split; [discriminate | intros (? & _ & [])].
  - cbn [capability_bits fold_right]. fold (capability_bits names).
    rewrite Z.lor_spec, orb_true_iff, IH. split.
    + intros [Hn | (name & Hi & Hin)].
      * exists n. split; [|left; reflexivity].
        unfold capability_flag in Hn.
        destruct i as [|[|[|i]]];
          [| | |rewrite flag_high_bit in Hn;
                [discriminate
                |repeat match goal with
                        | |- context [if ?b then _ else _] => destruct b
                        end; vm_compute; split; congruence]];
          (destruct (String.eqb_spec "menu" n) as [<-|_];
             [try discriminate Hn; reflexivity|]);
          (destruct (String.eqb_spec "trigger" n) as [<-|_];
             [try discriminate Hn; reflexivity|]);
          (destruct (String.eqb_spec "input-listener" n) as [<-|_];
             [try discriminate Hn; reflexivity|]);
          discriminate Hn.
      * exists name. split; [exact Hi | right; exact Hin].
    + intros (name & Hi & [<- | Hin]).
      * left. destruct i as [|[|[|i]]]; try discriminate Hi;
          injection Hi as <-; reflexivity.
      * right. exists name. split; assumption.
Qed.

(** C5.  When the script loads, [descriptor] is a function and its call
    returns a table, the callback appends one entry to the catalog, named
    after the script, whose capability bits are the bitwise OR of the
    flags of the names in the descriptor's [capabilities] table: "menu",
    "trigger" and "input-listener" give the bit at their position in
    [ppsz_capabilities], any other name gives none.  The names are those
    [luaL_checkstring] hands to [strcmp]: the text of each entry up to
    its first NUL. *)
Theorem ScanLuaCallback_capabilities :
  forall (M : lua_machine) (p_mgr : extensions_manager M)
         (psz_script : string) (l l1 l2 : lua_State M)
         (pb_continue : option bool) (f t : lua_value)
         (names : list string),
    luaL_dofile M l psz_script = (false, l1) ->
    lua_getglobal M l1 "descriptor" = f ->
    lua_isfunction f = true ->
    lua_pcall M l1 f [] = (Some t, l2) ->
    lua_istable t = true ->
    map (fun kv => luaL_checkstring M (snd kv))
      (lua_entries (lua_getfield t "capabilities")) = map Some names ->
    exists p_ext : extension M,
      ScanLuaCallback M p_mgr psz_script l pb_continue
      = ScanRet (continue_batch pb_continue)
          {| extensions := extensions p_mgr ++ [p_ext];
             activated_extensions := activated_extensions p_mgr |} l2
      /\ psz_name p_ext = psz_script
      /\ i_capabilities p_ext = capability_bits names
      /\ forall i : nat,
           Z.testbit (i_capabilities p_ext) (Z.of_nat i) = true
           <-> exists name,
                 ppsz_capabilities !! i = Some name /\ In name names.
Proof.
  intros M p_mgr psz_script l l1 l2 pb f t names Hload Hf Hfun Hcall Ht
    Hnames.
  unfold ScanLuaCallback. rewrite Hload, Hf, Hfun. cbn [negb].
  rewrite Hcall, Ht.
  assert (Hcaps :
            (if lua_istable (lua_getfield t "capabilities")
             then scan_capabilities M
                    (lua_entries (lua_getfield t "capabilities")) 0
             else Some 0) = Some (capability_bits names)).
  { destruct (lua_istable (lua_getfield t "capabilities")) eqn:Hc.
    - rewrite (scan_capabilities_bits M _ names 0 Hnames).
      rewrite Z.lor_0_l. reflexivity.
    - destruct (lua_getfield t "capabilities"); try discriminate Hc;
        destruct names; try discriminate Hnames; reflexivity. }
  rewrite Hcaps. eexists. split; [reflexivity|]. cbn [psz_name i_capabilities].
  split; [reflexivity|]. split; [reflexivity|].
  apply capability_bits_testbit.
Qed.

Lemma ScanLuaCallback_capabilities_witness :
  (exists p_ext : extension descriptor_machine,
     ScanLuaCallback descriptor_machine (empty_manager descriptor_machine)
       "sample.lua" tt (Some true)
     = ScanRet (-1)
         {| extensions := [] ++ [p_ext]; activated_extensions := [] |} tt
     /\ i_capabilities p_ext
        = capability_bits ["menu"; "bogus"; "input-listener"])
  /\ (exists p_ext : extension nul_machine,
        ScanLuaCallback nul_machine (empty_manager nul_machine)
          "cut.lua" tt (Some true)
        = ScanRet (-1)
            {| extensions := [] ++ [p_ext]; activated_extensions := [] |} tt
        /\ i_capabilities p_ext = EXT_HAS_MENU).
Proof.
  split.
  - destruct (ScanLuaCallback_capabilities descriptor_machine
                (empty_manager descriptor_machine) "sample.lua" tt tt tt
                (Some true) (LFunction 7) sample_descriptor
                ["menu"; "bogus"; "input-listener"])
      as (p_ext & Hrun & _ & Hcaps & _); try reflexivity.
    exists p_ext. split; [exact Hrun | exact Hcaps].
  - destruct (ScanLuaCallback_capabilities nul_machine
                (empty_manager nul_machine) "cut.lua" tt tt tt
                (Some true) (LFunction 7) nul_descriptor
                ["menu"; "triggers"])
      as (p_ext & Hrun & _ & Hcaps & _); try reflexivity.
    exists p_ext. split; [exact Hrun | exact Hcaps].
Defined.

Example scan_capabilities_cut_at_nul :
  scan_capabilities nul_machine
    [(LNumber 1, LString ("menu" ++ String zero "-bar"));
     (LNumber 2, LString ("trigger" ++ String zero ""));
     (LNumber 3, LString (String zero "input-listener"))] 0
  = Some (Z.lor EXT_HAS_MENU EXT_TRIGGER_ONLY).
Proof. reflexivity. Qed.

Example capability_bits_sample :
  capability_bits ["menu"; "bogus"; "input-listener"] = 5.
Proof. reflexivity. Qed.

Example ScanLuaCallback_sample :
  exists p_ext : extension descriptor_machine,
    ScanLuaCallback descriptor_machine (empty_manager descriptor_machine)
      "sample.lua" tt None
    = ScanRet (-1) {| extensions := [p_ext]; activated_extensions := [] |} tt
    /\ i_capabilities p_ext = Z.lor EXT_HAS_MENU EXT_INPUT_LISTENER
    /\ psz_title p_ext = Some "Sample".
Proof. eexists. split; [reflexivity|]. split; reflexivity. Qed.

(* ===================================================================== *)
(** * Part III.  Further properties of the code                           *)
(* ===================================================================== *)

(* --------------------------------------------------------------------- *)
(** ** unescapeXml: what it writes                                        *)
(* --------------------------------------------------------------------- *)

Lemma str_append_nil (s : string) : s ++ "" = s.
Proof. induction s as [|c s IH]; simpl; [reflexivity | rewrite IH; reflexivity]. Qed.

Lemma str_append_length (s t : string) :
  String.length (s ++ t) = (String.length s + String.length t)%nat.
Proof. induction s as [|c s IH]; simpl; [reflexivity | rewrite IH; reflexivity]. Qed.

Lemma c_str_length (buf : string) :
  (String.length (c_str buf) <= String.length buf)%nat.
Proof.
  induction buf as [|c buf IH]; simpl; [lia|].
  destruct (Ascii.eqb c zero); simpl; lia.
Qed.

Lemma c_str_cut (buf rest : string) :
  c_str (buf ++ String zero rest) = c_str buf.
Proof.
  induction buf as [|c buf IH]; simpl; [reflexivity|].
  destruct (Ascii.eqb c zero); [reflexivity | rewrite IH; reflexivity].
Qed.

Lemma unescapeXml_loop_length_aux (allowed : ascii -> bool) (n : nat) :
  forall s buf,
    (String.length s <= n)%nat ->
    unescapeXml_loop allowed s = Unescaped buf ->
    (String.length buf <= String.length s)%nat.
Proof.
  induction n as [|n IH]; intros s buf Hlen Hrun.
  - destruct s; [|simpl in Hlen; lia]. injection Hrun as <-. simpl. lia.
  - destruct s as [|c s]; [injection Hrun as <-; simpl; lia|].
    cbn [unescapeXml_loop] in Hrun. simpl in Hlen.
    destruct (Ascii.eqb c "?"%char).
    + destruct (sscanf_02x s); try discriminate Hrun.
      destruct s as [|h1 [|h2 s]]; try discriminate Hrun.
      destruct (unescapeXml_loop allowed s) as [b| |] eqn:E;
        try discriminate Hrun.
      injection Hrun as <-. simpl in *.
      specialize (IH s b ltac:(lia) E). lia.
    + destruct (allowed c); [|discriminate Hrun].
      destruct (unescapeXml_loop allowed s) as [b| |] eqn:E;
        try discriminate Hrun.
      injection Hrun as <-. simpl.
      specialize (IH s b ltac:(lia) E). lia.
Qed.

Lemma unescapeXml_loop_in_text (allowed : ascii -> bool) (n : nat) :
  forall s,
    (String.length s <= n)%nat ->
    well_escaped (fun _ => true) s = true ->
    unescapeXml_loop allowed s <> UnescapeUB.
Proof.
  induction n as [|n IH]; intros s Hlen Hw.
  - destruct s; [discriminate | simpl in Hlen; lia].
  - destruct s as [|a s]; [discriminate|].
    cbn [well_escaped] in Hw. simpl in Hlen. cbn [unescapeXml_loop].
    destruct (Ascii.eqb a "?"%char) eqn:Ea.
    + destruct s as [|h1 [|h2 s]]; try discriminate Hw.
      apply andb_true_iff in Hw as [Hh Hw].
      apply andb_true_iff in Hh as [Hh1 Hh2].
      unfold is_hex in Hh1, Hh2.
      destruct (hex_digit h1) as [d1|] eqn:E1; [|discriminate].
      destruct (hex_digit h2) as [d2|] eqn:E2; [|discriminate].
      rewrite (sscanf_02x_two_digits h1 h2 _ d1 d2 E1 E2).
      specialize (IH s ltac:(simpl in Hlen; lia) Hw).
      destruct (unescapeXml_loop allowed s); [discriminate.. | congruence].
    + cbn [andb] in Hw. specialize (IH s ltac:(lia) Hw).
      destruct (allowed a); [|discriminate].
      destruct (unescapeXml_loop allowed s); [discriminate.. | congruence].
Qed.

(** X1.  [unescapeXml] stays inside its text and its buffer when every
    ['?'] of the text is followed by two hexadecimal digits (the other
    bytes being anything): the loop then never steps past the terminator
    of [psz_text], it writes at most [strlen( psz_text )] bytes before
    the terminator into the buffer of [strlen + 1] bytes, and the call
    gives NULL or a string no longer than its input.  The condition is
    needed: on "?4" the loop steps past the terminator. *)
Theorem unescapeXml_stays_in_bounds :
  forall allowed : ascii -> bool,
    (forall psz_text : string,
        well_escaped (fun _ => true) psz_text = true ->
        (unescapeXml_loop allowed psz_text = UnescapeNull
         \/ exists buf,
              unescapeXml_loop allowed psz_text = Unescaped buf
              /\ (String.length buf + 1 <= String.length psz_text + 1)%nat)
        /\ (unescapeXml allowed psz_text = UnescapeNull
            \/ exists ret,
                 unescapeXml allowed psz_text = Unescaped ret
                 /\ (String.length ret <= String.length psz_text)%nat))
    /\ well_escaped (fun _ => true) "?4" = false
    /\ unescapeXml allowed "?4" = UnescapeUB.
Proof.
  intros allowed. split; [|split; reflexivity].
  intros s Hw.
  pose proof (unescapeXml_loop_in_text allowed _ s (le_n _) Hw) as Hin.
  unfold unescapeXml.
  destruct (unescapeXml_loop allowed s) as [buf| |] eqn:E;
    [|split; left; reflexivity | congruence].
  pose proof (unescapeXml_loop_length_aux allowed _ s buf (le_n _) E).
  pose proof (c_str_length buf).
  split; right; eexists; (split; [reflexivity | lia]).
Qed.

Lemma unescapeXml_stays_in_bounds_witness :
  well_escaped (fun _ => true) "a?41<b" = true
  /\ unescapeXml allow_path_chars "a?41<b" = UnescapeNull
  /\ well_escaped (fun _ => true) "a?41b" = true
  /\ exists ret,
       unescapeXml allow_path_chars "a?41b" = Unescaped ret
       /\ (String.length ret <= String.length "a?41b")%nat.
Proof.
  destruct (unescapeXml_stays_in_bounds allow_path_chars) as [Hin _].
  split; [reflexivity|]. split; [|split; [reflexivity|]].
  - destruct (Hin "a?41<b" eq_refl) as [_ [Hnull | (ret & Hret & _)]];
      [exact Hnull | discriminate Hret].
  - destruct (Hin "a?41b" eq_refl) as [_ [Hnull | Hret]];
      [discriminate Hnull | exact Hret].
Defined.

(** X2.  A text in which no byte is ['?'] or NUL and every byte is on
    the allow-list comes back unchanged. *)
Theorem unescapeXml_plain_identity :
  forall (allowed : ascii -> bool) (psz_text : string),
    str_forall
      (fun c => allowed c && negb (Ascii.eqb c "?"%char)
                && negb (Ascii.eqb c zero)) psz_text = true ->
    unescapeXml allowed psz_text = Unescaped psz_text.
Proof.
  intros allowed s H. unfold unescapeXml.
  assert (Hloop : unescapeXml_loop allowed s = Unescaped s /\ c_str s = s).
  { induction s as [|c s IH]; [split; reflexivity|].
    cbn [str_forall] in H. apply andb_true_iff in H as [Hc Hs].
    apply andb_true_iff in Hc as [Hc Hz]. apply andb_true_iff in Hc as [Ha Hq].
    apply negb_true_iff in Hq, Hz.
    destruct (IH Hs) as [IHl IHc].
    cbn [unescapeXml_loop c_str]. rewrite Hq, Ha, Hz, IHl, IHc.
    split; reflexivity. }
  destruct Hloop as [-> ->]. reflexivity.
Qed.

Lemma unescapeXml_plain_identity_witness :
  unescapeXml allow_path_chars "/dir/file.txt" = Unescaped "/dir/file.txt".
Proof.
  apply (unescapeXml_plain_identity allow_path_chars "/dir/file.txt").
  reflexivity.
Defined.

Lemma hex_char_digits (c : ascii) :
  let n := Z.of_N (N_of_ascii c) in
  sscanf_02x (String (hex_char (n / 16)) (String (hex_char (n mod 16)) ""))
  = Matched n
  /\ char_of_int n = c.
Proof.
  destruct c as [[|] [|] [|] [|] [|] [|] [|] [|]]; vm_compute;
    split; reflexivity.
Qed.

Lemma sscanf_02x_two_chars (c1 c2 : ascii) (rest : string) :
  isspace c1 = false ->
  sscanf_02x (String c1 (String c2 rest))
  = sscanf_02x (String c1 (String c2 "")).
Proof.
  intros H. unfold sscanf_02x. cbn [skip_space]. rewrite H. reflexivity.
Qed.

Lemma hex_char_escape (c : ascii) (rest : string) :
  let n := Z.of_N (N_of_ascii c) in
  sscanf_02x (String (hex_char (n / 16))
                (String (hex_char (n mod 16)) rest)) = Matched n.
Proof.
  intros n. rewrite sscanf_02x_two_chars; [apply hex_char_digits|].
  subst n. destruct c as [[|] [|] [|] [|] [|] [|] [|] [|]]; reflexivity.
Qed.

(** X3.  Round trip with the escape scheme: when every byte of a text is
    written as ['?'] followed by its two hexadecimal digits, the loop of
    [unescapeXml] writes back exactly those bytes, whatever the
    allow-list, and the call returns them up to the first NUL. *)
Theorem unescapeXml_escape_all :
  forall (allowed : ascii -> bool) (bytes : string),
    unescapeXml_loop allowed (escape_all bytes) = Unescaped bytes
    /\ unescapeXml allowed (escape_all bytes) = Unescaped (c_str bytes).
Proof.
  intros allowed bytes.
  assert (H : unescapeXml_loop allowed (escape_all bytes) = Unescaped bytes).
  { induction bytes as [|c bytes IH]; [reflexivity|].
    cbn [escape_all unescapeXml_loop Ascii.eqb Bool.eqb].
    rewrite hex_char_escape, IH. cbn [unescaped_cons].
    rewrite (proj2 (hex_char_digits c)). reflexivity. }
  split; [exact H|]. unfold unescapeXml. rewrite H. reflexivity.
Qed.

(** X4.  An escaped NUL cuts the result: after a well-formed text, "?00"
    followed by any well-formed text gives the same string as the text
    before it alone. *)
Theorem unescapeXml_nul_escape_truncates :
  forall (allowed : ascii -> bool) (p rest : string),
    well_escaped allowed p = true ->
    well_escaped allowed rest = true ->
    unescapeXml allowed (p ++ "?00" ++ rest) = unescapeXml allowed p.
Proof.
  intros allowed p rest Hp Hrest.
  destruct (unescapeXml_loop_app allowed p Hp) as [buf Hbuf].
  destruct (unescapeXml_loop_app allowed rest Hrest) as [buf' Hbuf'].
  pose proof (Hbuf "") as Hp'. rewrite str_append_nil in Hp'.
  pose proof (Hbuf' "") as Hr'. rewrite str_append_nil in Hr'.
  unfold unescapeXml. rewrite Hbuf, Hp'.
  change ("?00" ++ rest) with (String "?"%char (String "0"%char (String "0"%char rest))).
  cbn [unescapeXml_loop Ascii.eqb Bool.eqb].
  rewrite (sscanf_02x_two_chars "0"%char "0"%char rest eq_refl).
  change (sscanf_02x "00") with (Matched 0).
  rewrite Hr'. cbn [unescapeXml_loop unescaped_app unescaped_cons].
  change (char_of_int 0) with zero.
  rewrite c_str_cut, str_append_nil. reflexivity.
Qed.

Lemma unescapeXml_nul_escape_truncates_witness :
  unescapeXml allow_path_chars ("a.zip" ++ "?00" ++ "/x")
  = unescapeXml allow_path_chars "a.zip".
Proof.
  apply (unescapeXml_nul_escape_truncates allow_path_chars "a.zip" "/x");
    reflexivity.
Defined.

(* --------------------------------------------------------------------- *)
(** ** AccessOpen: outcome and clean-up                                   *)
(* --------------------------------------------------------------------- *)

Lemma split_mrl_first (sep loc a b : string) :
  loc = a ++ sep ++ b ->
  (forall a' b', loc = a' ++ sep ++ b' ->
                 (String.length a <= String.length a')%nat) ->
  split_mrl sep loc = Some (a, b).
Proof.
  intros Hloc Hmin. unfold split_mrl, ZIP_SEP_LEN.
  rewrite (strstr_first_occurrence _ _ _ _ Hloc Hmin).
  rewrite Hloc, str_take_app, str_drop_add, str_drop_app, str_drop_app.
  reflexivity.
Qed.



(** X6.  A half of the MRL that is not a valid encoding is used as it
    is: when the text before the first separator has, after a well-formed
    start, a byte that is neither ['?'] nor allowed, [unescapeXml] gives
    NULL for it and the archive is opened under the raw text, escapes in
    it left undecoded. *)
Theorem AccessOpen_raw_fallback :
  forall (allowed : ascii -> bool) (ZIP_SEP : string) (unzFile : Type)
         (unzOpen2 : string -> option unzFile)
         (unzLocateFile : unzFile -> string -> bool)
         (unzOpenCurrentFile : unzFile -> bool)
         (loc a b p rest pb : string) (c : ascii),
    loc = a ++ ZIP_SEP ++ b ->
    (forall a' b', loc = a' ++ ZIP_SEP ++ b' ->
                   (String.length a <= String.length a')%nat) ->
    a = p ++ String c rest ->
    well_escaped allowed p = true ->
    Ascii.eqb c "?"%char = false ->
    allowed c = false ->
    unescape_or_dup allowed b = Some pb ->
    unescapeXml allowed a = UnescapeNull
    /\ exists i_ret calls,
         AccessOpen allowed ZIP_SEP unzFile unzOpen2 unzLocateFile
           unzOpenCurrentFile loc
         = AccessOpenRet i_ret (UnzOpen2 a :: calls).
Proof.
  intros allowed sep unzFile open2 locate opencur loc a b p rest pb c
    Hloc Hmin Ha Hp Hq Hc Hb.
  assert (Hnull : unescapeXml allowed a = UnescapeNull)
    by (rewrite Ha; apply unescapeXml_rejects_byte; assumption).
  split; [exact Hnull|].
  unfold AccessOpen. rewrite (split_mrl_first _ _ _ _ Hloc Hmin).
  unfold unescape_or_dup at 1. rewrite Hnull, Hb.
  destruct (open2 a) as [zf|]; [|eexists; eexists; reflexivity].
  destruct (locate zf pb); cbn [negb];
    [destruct (opencur zf); cbn [negb]|]; eexists; eexists; reflexivity.
Qed.

Lemma AccessOpen_raw_fallback_witness :
  unescapeXml allow_path_chars "/my?41 files.zip" = UnescapeNull
  /\ exists i_ret calls,
       AccessOpen allow_path_chars "!/" unit (fun _ => Some tt)
         (fun _ _ => true) (fun _ => true) "/my?41 files.zip!/f"
       = AccessOpenRet i_ret (UnzOpen2 "/my?41 files.zip" :: calls).
Proof.
  apply (AccessOpen_raw_fallback allow_path_chars "!/" unit
           (fun _ => Some tt) (fun _ _ => true) (fun _ => true)
           "/my?41 files.zip!/f" "/my?41 files.zip" "f" "/my?41"
           "files.zip" "f" " "%char); try reflexivity.
  intros a' b' H.
  apply (strstr_Some_minimal "/my?41 files.zip!/f" "!/" a' b');
    [reflexivity | exact H].
Defined.

(* --------------------------------------------------------------------- *)
(** ** The I/O shim: open, seek, tell                                     *)
(* --------------------------------------------------------------------- *)

Lemma strstr_found_split (h n : string) :
  strstr h n <> None <-> exists a b, h = a ++ n ++ b.
Proof.
  split.
  - destruct (strstr h n) as [i|] eqn:E; [|congruence].
    intros _. eexists; eexists. exact (strstr_Some_split _ _ _ E).
  - intros (a & b & H) E. exact (strstr_None_absent _ _ _ _ E H).
Qed.

(** X7.  [ZipIO_Open], called with the one mode it accepts, hands
    [vlc_stream_NewURL] a text that always holds "://": the file name
    itself when it already holds it, and "file://" followed by the file
    name otherwise.  The text with its terminator fits the
    [strlen( file ) + 8] bytes allocated for it, and normalising it again
    changes nothing. *)
Theorem ZipIO_Open_uri :
  forall (stream_t : Type) (vlc_stream_NewURL : string -> option stream_t)
         (mode_read mode_existing : Z) (file : string),
  exists fileUri,
    ZipIO_Open stream_t vlc_stream_NewURL mode_read mode_existing file
      (Z.lor mode_read mode_existing)
    = ZipOpened fileUri (vlc_stream_NewURL fileUri)
    /\ strstr fileUri "://" <> None
    /\ (fileUri = file \/ fileUri = "file://" ++ file)
    /\ ((exists a b, file = a ++ "://" ++ b) <-> fileUri = file)
    /\ (String.length fileUri + 1 <= String.length file + 8)%nat
    /\ file_uri fileUri = fileUri.
Proof.
  intros stream_t newurl mr me file. exists (file_uri file).
  unfold ZipIO_Open. rewrite Z.eqb_refl.
  split; [reflexivity|].
  assert (Hpre : forall f, strstr ("file://" ++ f) "://" = Some 4%nat)
    by (intros f; reflexivity).
  unfold file_uri. destruct (strstr file "://") as [i|] eqn:E.
  - rewrite E. split; [congruence|]. split; [left; reflexivity|].
    split; [|split; [lia | reflexivity]].
    split; [reflexivity|]. intros _. apply strstr_found_split. congruence.
  - rewrite Hpre. split; [congruence|]. split; [right; reflexivity|].
    split; [|split; [simpl; lia | reflexivity]].
    split.
    + intros (a & b & H). exfalso. exact (strstr_None_absent _ _ _ _ E H).
    + intros H. exfalso.
      assert (Hl : String.length ("file://" ++ file) = String.length file)
        by (rewrite H; reflexivity).
      simpl in Hl. lia.
Qed.

Lemma ZipIO_Open_uri_witness :
  ZipIO_Open unit (fun _ => Some tt) 1 4 "/tmp/a.zip" (Z.lor 1 4)
  = ZipOpened "file:///tmp/a.zip" (Some tt)
  /\ ZipIO_Open unit (fun _ => Some tt) 1 4 "http://host/a.zip" (Z.lor 1 4)
     = ZipOpened "http://host/a.zip" (Some tt).
Proof.
  destruct (ZipIO_Open_uri unit (fun _ => Some tt) 1 4 "/tmp/a.zip")
    as (u1 & Hrun1 & _ & [Hu1 | Hu1] & Hiff1 & _).
  - exfalso. apply Hiff1 in Hu1. destruct Hu1 as (a & b & H).
    exact (strstr_None_absent "/tmp/a.zip" "://" a b eq_refl H).
  - destruct (ZipIO_Open_uri unit (fun _ => Some tt) 1 4
                "http://host/a.zip") as (u2 & Hrun2 & _ & _ & Hiff2 & _).
    assert (Hu2 : u2 = "http://host/a.zip")
      by (apply Hiff2; exists "http", "host/a.zip"; reflexivity).
    subst u1 u2. split; [exact Hrun1 | exact Hrun2].
Defined.

(** X8.  [ZipIO_Seek] answers only 0 or -1; when it answers -1 the
    stream has not been touched; and an origin that is none of the three
    known ones is answered with -1. *)
Theorem ZipIO_Seek_codes :
  forall (stream_t : Type) (vlc_stream_Tell stream_Size : stream_t -> Z)
         (vlc_stream_Seek : stream_t -> Z -> vlc_ret * stream_t)
         (stream : stream_t) (offset origin : Z),
    let r := ZipIO_Seek stream_t vlc_stream_Tell stream_Size vlc_stream_Seek
               stream offset origin in
    (fst r = 0 \/ fst r = -1)
    /\ (fst r = -1 -> snd r = stream)
    /\ (origin <> SEEK_CUR -> origin <> SEEK_SET -> origin <> SEEK_END ->
        r = (-1, stream)).
Proof.
  intros stream_t tell size sseek stream offset origin r.
  unfold r, ZipIO_Seek.
  destruct (Z.eqb_spec origin SEEK_CUR);
    [|destruct (Z.eqb_spec origin SEEK_SET);
      [|destruct (Z.eqb_spec origin SEEK_END)]];
    try match goal with
        | |- context [if ?p <? 0 then _ else _] => destruct (p <? 0)
        end; simpl; repeat split; auto; try congruence; try discriminate.
Qed.

Lemma ZipIO_Seek_codes_witness :
  ZipIO_Seek Z (fun s => s) (fun _ => fixed_size) failing_seek 40 0 7
  = (-1, 40).
Proof.
  destruct (ZipIO_Seek_codes Z (fun s => s) (fun _ => fixed_size)
              failing_seek 40 0 7) as (_ & _ & H).
  apply H; discriminate.
Defined.

Lemma to_long_small (bits z : Z) :
  0 < bits -> 0 <= z < 2 ^ (bits - 1) -> to_long bits z = z.
Proof.
  intros Hb Hz. unfold to_long.
  assert (H2 : 2 ^ bits = 2 * 2 ^ (bits - 1)).
  { replace bits with (Z.succ (bits - 1)) at 1 by lia.
    apply Z.pow_succ_r. lia. }
  rewrite Z.mod_small; lia.
Qed.

(** X9.  On a stream that is where [vlc_stream_Seek] put it, a
    [ZipIO_Seek] whose position (the offset plus the current position,
    zero or the size, as an [int64_t]) fits a non-negative [long]
    succeeds, and [ZipIO_Tell] then reports that position. *)
Theorem ZipIO_Seek_then_Tell :
  forall (stream_t : Type)
         (vlc_stream_Tell stream_Size : stream_t -> Z)
         (vlc_stream_Seek : stream_t -> Z -> vlc_ret * stream_t)
         (long_bits : Z) (stream : stream_t) (offset origin : Z),
    0 < long_bits <= 64 ->
    origin = SEEK_CUR \/ origin = SEEK_SET \/ origin = SEEK_END ->
    let target :=
      to_int64 (offset + (if origin =? SEEK_CUR then vlc_stream_Tell stream
                          else if origin =? SEEK_SET then 0
                          else stream_Size stream)) in
    0 <= target < 2 ^ (long_bits - 1) ->
    vlc_stream_Tell (snd (vlc_stream_Seek stream target)) = target ->
    let r := ZipIO_Seek stream_t vlc_stream_Tell stream_Size vlc_stream_Seek
               stream offset origin in
    fst r = 0
    /\ ZipIO_Tell stream_t vlc_stream_Tell long_bits (snd r) = target.
Proof.
  intros stream_t tell size sseek bits stream offset origin
    Hbits Horigin target Hrange Hhonour r.
  assert (Hpow : 2 ^ (bits - 1) <= 2 ^ 63)
    by (apply Z.pow_le_mono_r; lia).
  assert (Hr : r = (0, snd (sseek stream target))).
  { unfold r, ZipIO_Seek.
    assert (Hlt : (target <? 0) = false) by (apply Z.ltb_ge; lia).
    unfold target in *.
    destruct Horigin as [-> | [-> | ->]]; simpl in *;
      rewrite ?to_int64_add_l, ?Z.add_0_r in *; rewrite Hlt;
      reflexivity. }
  rewrite Hr. split; [reflexivity|]. cbn [snd].
  unfold ZipIO_Tell. rewrite Hhonour.
  rewrite (to_int64_small target) by lia.
  apply to_long_small; lia.
Qed.

Lemma ZipIO_Seek_then_Tell_witness :
  fst (ZipIO_Seek Z (fun s => s) (fun _ => fixed_size)
         (fun _ pos => (VLC_SUCCESS, pos)) 40 (2 ^ 64 - 10) SEEK_END) = 0
  /\ ZipIO_Tell Z (fun s => s) 64
       (snd (ZipIO_Seek Z (fun s => s) (fun _ => fixed_size)
               (fun _ pos => (VLC_SUCCESS, pos)) 40 (2 ^ 64 - 10) SEEK_END))
     = to_int64 (2 ^ 64 - 10 + fixed_size).
Proof.
  apply (ZipIO_Seek_then_Tell Z (fun s => s) (fun _ => fixed_size)
           (fun _ pos => (VLC_SUCCESS, pos)) 64 40 (2 ^ 64 - 10) SEEK_END).
  - lia.
  - right. right. reflexivity.
  - vm_compute. split; [discriminate | reflexivity].
  - reflexivity.
Defined.

(* --------------------------------------------------------------------- *)
(** ** The extension runtime: states made, used and closed                *)
(* --------------------------------------------------------------------- *)

(** What [lua_ExecuteFunction] does on an extension that has a state. *)
Lemma lua_ExecuteFunction_live (M : lua_machine) (psz_function : string)
  (e : extension M) (log : list lua_event) (l : lua_State M) :
  L e = Some l ->
  let f := lua_getglobal M l psz_function in
  lua_ExecuteFunction M psz_function {| w_ext := e; w_log := log |}
  = if lua_isfunction f then
      Done (match fst (lua_pcall M l f []) with
            | Some _ => VLC_SUCCESS
            | None => VLC_EGENERIC
            end)
        {| w_ext :=
             {| psz_name := psz_name e; psz_title := psz_title e;
                psz_author := psz_author e;
                psz_description := psz_description e;
                psz_url := psz_url e; psz_version := psz_version e;
                i_capabilities := i_capabilities e;
                L := Some (snd (lua_pcall M l f []));
                p_sync := p_sync e |};
           w_log := (log ++ [LuaGetGlobal psz_function; LuaPCall f []])%list |}
    else Done VLC_EGENERIC
           {| w_ext := e;
              w_log := (log ++ [LuaGetGlobal psz_function])%list |}.
Proof.
  intros Hl f. ext_unfold. cbn [w_ext w_log]. rewrite Hl.
  cbn [w_ext w_log snd fst]. fold f.
  destruct (lua_isfunction f); cbn [negb]; [|reflexivity].
  destruct (lua_pcall M l f []) as [[r|] l']; cbn [w_ext w_log fst snd];
    rewrite Hl; cbn [w_ext w_log]; rewrite <- app_assoc; reflexivity.
Qed.

(** X10.  [GetLuaState] keeps one interpreter per extension: an
    extension that has a state gets that state back and nothing else
    happens, and once a call has given a state, calling again gives the
    same state without touching the interpreter. *)
Theorem GetLuaState_reuses_state :
  forall (M : lua_machine) (w : world M),
  exists r w1,
    GetLuaState M w = Done r w1
    /\ (L (w_ext w) <> None -> r = L (w_ext w) /\ w1 = w)
    /\ (forall l, r = Some l -> GetLuaState M w1 = Done (Some l) w1).
Proof.
  intros M w.
  destruct (GetLuaState_cases M w) as (r & w1 & Hget & Hr & _).
  exists r, w1. split; [exact Hget|]. split.
  - intros Hlive. destruct (L (w_ext w)) as [l|] eqn:El; [|congruence].
    rewrite (GetLuaState_live M w l El) in Hget.
    injection Hget as <- <-. split; reflexivity.
  - intros l ->. apply GetLuaState_live. exact Hr.
Qed.

Lemma GetLuaState_reuses_state_witness :
  exists r w1,
    GetLuaState sample_machine (sample_world 0 None) = Done r w1
    /\ GetLuaState sample_machine w1 = Done (Some tt) w1.
Proof.
  destruct (GetLuaState_reuses_state sample_machine (sample_world 0 None))
    as (r & w1 & Hget & _ & Hagain).
  exists r, w1. split; [exact Hget|]. apply Hagain.
  assert (E : GetLuaState sample_machine (sample_world 0 None)
              = Done (Some tt)
                  {| w_ext := new_extension sample_machine "ext.lua" 0
                                (Some tt) idle;
                     w_log := [LuaNewState; LuaDoFile "ext.lua"] |})
    by reflexivity.
  rewrite E in Hget. injection Hget as <- _. reflexivity.
Defined.

(** X11.  On an extension that has a Lua state, [lua_ExecuteFunction]
    looks the name up once; it returns [VLC_SUCCESS] exactly when the
    global is a function and its call did not raise; a global that is not
    a function is not called; and no state is made or closed. *)
Theorem lua_ExecuteFunction_result :
  forall (M : lua_machine) (psz_function : string) (w : world M)
         (l : lua_State M),
    L (w_ext w) = Some l ->
    let f := lua_getglobal M l psz_function in
    exists i_ret w',
      lua_ExecuteFunction M psz_function w = Done i_ret w'
      /\ (i_ret = VLC_SUCCESS
          <-> lua_isfunction f = true
              /\ fst (lua_pcall M l f []) <> None)
      /\ w_log w'
         = (w_log w ++ LuaGetGlobal psz_function
                       :: (if lua_isfunction f then [LuaPCall f []]
                           else []))%list
      /\ L (w_ext w') <> None.
Proof.
  intros M name [e log] l Hl f. cbn [w_ext w_log] in *.
  rewrite (lua_ExecuteFunction_live M name e log l Hl). fold f.
  destruct (lua_isfunction f); eexists; eexists;
    (split; [reflexivity|]); cbn [w_ext w_log L].
  - split; [|split; [reflexivity | discriminate]].
    destruct (fst (lua_pcall M l f [])); split.
    + intros _. split; [reflexivity | discriminate].
    + reflexivity.
    + discriminate.
    + intros [_ H]. congruence.
  - split; [|split; [reflexivity | congruence]].
    split; [discriminate | intros [H _]; discriminate].
Qed.

Lemma lua_ExecuteFunction_result_witness :
  exists i_ret w',
    lua_ExecuteFunction sample_machine "activate"
      (sample_world 0 (Some tt)) = Done i_ret w'
    /\ w_log w' = [LuaGetGlobal "activate"]
    /\ i_ret <> VLC_SUCCESS.
Proof.
  destruct (lua_ExecuteFunction_result sample_machine "activate"
              (sample_world 0 (Some tt)) tt eq_refl)
    as (i_ret & w' & Hrun & Hok & Hlog & _).
  exists i_ret, w'. split; [exact Hrun|]. split; [exact Hlog|].
  intros H. apply Hok in H. destruct H as [H _]. discriminate H.
Defined.

(** X12.  [lua_ExecuteFunction] does not test the handle [GetLuaState]
    gives: on an extension without a state, when the state cannot be
    made or the script does not load, NULL goes to [lua_getglobal] and
    the call (so [lua_ExtensionActivate] too) crashes, where
    [lua_ExtensionTriggerMenu] returns [VLC_EGENERIC]. *)
Theorem lua_ExecuteFunction_null_state :
  forall (M : lua_machine) (psz_function : string) (w : world M),
    L (w_ext w) = None ->
    (luaL_newstate M = None
     \/ exists l0,
          luaL_newstate M = Some l0
          /\ fst (luaL_dofile M (register_libs M true l0)
                    (psz_name (w_ext w))) = true) ->
    lua_ExecuteFunction M psz_function w = Crash
    /\ lua_ExtensionActivate M w = Crash
    /\ exists w', lua_ExtensionTriggerMenu M 0 w = Done VLC_EGENERIC w'.
Proof.
  intros M name [e log] Hl Hfail. cbn [w_ext] in *.
  assert (Hget : exists w1,
             GetLuaState M {| w_ext := e; w_log := log |} = Done None w1).
  { ext_unfold. cbn [w_ext w_log]. rewrite Hl. cbn [w_ext w_log].
    destruct Hfail as [-> | (l0 & -> & Hdo)]; [eexists; reflexivity|].
    destruct (luaL_dofile M (register_libs M true l0) (psz_name e))
      as [failed l2]. cbn [fst] in Hdo. subst failed.
    eexists; reflexivity. }
  destruct Hget as [w1 Hget].
  assert (Hexec : forall n, lua_ExecuteFunction M n
                              {| w_ext := e; w_log := log |} = Crash).
  { intros n. unfold lua_ExecuteFunction.
    rewrite (bind_Done _ _ _ _ _ Hget). reflexivity. }
  split; [apply Hexec|]. split; [apply Hexec|].
  unfold lua_ExtensionTriggerMenu. rewrite (bind_Done _ _ _ _ _ Hget).
  eexists. reflexivity.
Qed.

Lemma lua_ExecuteFunction_null_state_witness :
  lua_ExecuteFunction broken_machine "activate" broken_world = Crash
  /\ lua_ExtensionActivate broken_machine broken_world = Crash
  /\ exists w',
       lua_ExtensionTriggerMenu broken_machine 0 broken_world
       = Done VLC_EGENERIC w'.
Proof.
  apply (lua_ExecuteFunction_null_state broken_machine "activate"
           broken_world); [reflexivity|].
  right. exists tt. split; reflexivity.
Defined.




(** X14.  [lua_ExtensionDeactivate] on an extension without a Lua state
    returns [VLC_SUCCESS] and touches nothing; on one that has a state it
    looks "deactivate" up, calls it if it is a function, then closes the
    state, and returns [VLC_SUCCESS] exactly when the function was there
    and did not raise.  Deactivating again is then a successful
    no-op. *)
Theorem lua_ExtensionDeactivate_once :
  forall (M : lua_machine) (w : world M),
  exists i_ret w1,
    lua_ExtensionDeactivate M w = Done i_ret w1
    /\ lua_ExtensionDeactivate M w1 = Done VLC_SUCCESS w1
    /\ (L (w_ext w) = None -> i_ret = VLC_SUCCESS /\ w1 = w)
    /\ (forall l,
          L (w_ext w) = Some l ->
          let f := lua_getglobal M l "deactivate" in
          w_log w1
          = (w_log w ++ LuaGetGlobal "deactivate"
                        :: (if lua_isfunction f then [LuaPCall f []]
                            else []) ++ [LuaClose])%list
          /\ (i_ret = VLC_SUCCESS
              <-> lua_isfunction f = true
                  /\ fst (lua_pcall M l f []) <> None)).
Proof.
  intros M [e log]. unfold lua_ExtensionDeactivate at 1.
  unfold bind at 1. unfold get_ext at 1. cbn [w_ext w_log].
  destruct (L e) as [l|] eqn:El.
  - unfold bind at 1.
    rewrite (lua_ExecuteFunction_live M "deactivate" e log l El).
    destruct (lua_isfunction (lua_getglobal M l "deactivate")) eqn:Hf.
    + ext_unfold. cbn [w_ext w_log L].
      eexists; eexists. split; [reflexivity|]. cbn [w_ext w_log L].
      split; [reflexivity|]. split; [discriminate|].
      intros l0 Hl0. injection Hl0 as <-. cbn zeta. rewrite Hf.
      split; [rewrite <- !app_assoc; reflexivity|].
      destruct (fst (lua_pcall M l (lua_getglobal M l "deactivate") []));
        split.
      * intros _. split; [reflexivity | discriminate].
      * reflexivity.
      * discriminate.
      * intros [_ H]. congruence.
    + ext_unfold. cbn [w_ext w_log L].
      eexists; eexists. split; [reflexivity|]. cbn [w_ext w_log L].
      split; [reflexivity|]. split; [discriminate|].
      intros l0 Hl0. injection Hl0 as <-. cbn zeta. rewrite Hf.
      split; [rewrite <- !app_assoc; reflexivity|].
      split; [discriminate | intros [H _]; discriminate].
  - exists VLC_SUCCESS, {| w_ext := e; w_log := log |}.
    split; [reflexivity|]. split.
    + unfold lua_ExtensionDeactivate, bind, get_ext. cbn [w_ext].
      rewrite El. reflexivity.
    + split; [auto | discriminate].
Qed.

Lemma lua_ExtensionDeactivate_once_witness :
  exists i_ret w1,
    lua_ExtensionDeactivate sample_machine (sample_world 0 (Some tt))
    = Done i_ret w1
    /\ w_log w1 = [LuaGetGlobal "deactivate"; LuaClose]
    /\ i_ret <> VLC_SUCCESS
    /\ lua_ExtensionDeactivate sample_machine w1 = Done VLC_SUCCESS w1.
Proof.
  destruct (lua_ExtensionDeactivate_once sample_machine
              (sample_world 0 (Some tt)))
    as (i_ret & w1 & Hrun & Hagain & _ & Hlive).
  destruct (Hlive tt eq_refl) as [Hlog Hret].
  exists i_ret, w1. split; [exact Hrun|]. split; [exact Hlog|].
  split; [|exact Hagain].
  intros H. apply Hret in H. destruct H as [H _]. discriminate H.
Defined.

(** X15.  [lua_ExtensionWidgetClick] on an extension without a Lua state
    returns [VLC_SUCCESS] and changes nothing: no state is made.  On an
    extension with a state the interpreter sees exactly one lookup, of
    the function the widget names, followed by one call of what was
    found (without arguments) when that is a function, and nothing when
    it is not; the result is [VLC_SUCCESS] exactly when a function was
    found and its call did not raise, [VLC_EGENERIC] otherwise; the
    extension keeps its state (as the call left it) and its lock. *)
Theorem lua_ExtensionWidgetClick_keeps_state :
  forall (M : lua_machine) (psz_function : string) (w : world M),
    match L (w_ext w) with
    | None => lua_ExtensionWidgetClick M psz_function w = Done VLC_SUCCESS w
    | Some l =>
        let f := lua_getglobal M l psz_function in
        exists i_ret w',
          lua_ExtensionWidgetClick M psz_function w = Done i_ret w'
          /\ w_log w'
             = (w_log w
                ++ LuaGetGlobal psz_function
                   :: (if lua_isfunction f then [LuaPCall f []] else []))%list
          /\ i_ret
             = (if lua_isfunction f
                then match fst (lua_pcall M l f []) with
                     | Some _ => VLC_SUCCESS
                     | None => VLC_EGENERIC
                     end
                else VLC_EGENERIC)
          /\ L (w_ext w')
             = Some (if lua_isfunction f then snd (lua_pcall M l f [])
                     else l)
          /\ p_sync (w_ext w') = p_sync (w_ext w)
          /\ i_capabilities (w_ext w') = i_capabilities (w_ext w)
          /\ psz_name (w_ext w') = psz_name (w_ext w)
    end.
Proof.
  intros M name [e log]. cbn [w_ext w_log].
  destruct (L e) as [l|] eqn:El;
    unfold lua_ExtensionWidgetClick;
    unfold bind at 1; unfold get_ext at 1; cbn [w_ext w_log]; rewrite El;
    [|reflexivity].
  cbv zeta. rewrite (lua_ExecuteFunction_live M name e log l El).
  destruct (lua_isfunction (lua_getglobal M l name)).
  - eexists; eexists. split; [reflexivity|]. cbn [w_ext w_log L p_sync
      i_capabilities psz_name]. auto 10.
  - eexists; eexists. split; [reflexivity|]. cbn [w_ext w_log L p_sync
      i_capabilities psz_name]. rewrite El. auto 10.
Qed.

Lemma lua_ExtensionWidgetClick_keeps_state_witness :
  (exists w',
     lua_ExtensionWidgetClick sample_machine "trigger_menu"
       (sample_world 0 (Some tt)) = Done VLC_SUCCESS w'
     /\ w_log w' = [LuaGetGlobal "trigger_menu"; LuaPCall (LFunction 2) []])
  /\ (exists w',
        lua_ExtensionWidgetClick sample_machine "click_ok"
          (sample_world 0 (Some tt)) = Done VLC_EGENERIC w'
        /\ w_log w' = [LuaGetGlobal "click_ok"])
  /\ lua_ExtensionWidgetClick sample_machine "click_ok" (sample_world 0 None)
     = Done VLC_SUCCESS (sample_world 0 None).
Proof.
  split; [|split].
  - destruct (lua_ExtensionWidgetClick_keeps_state sample_machine
                "trigger_menu" (sample_world 0 (Some tt)))
      as (i_ret & w' & Hrun & Hlog & -> & _).
    exists w'. split; [exact Hrun | exact Hlog].
  - destruct (lua_ExtensionWidgetClick_keeps_state sample_machine
                "click_ok" (sample_world 0 (Some tt)))
      as (i_ret & w' & Hrun & Hlog & -> & _).
    exists w'. split; [exact Hrun | exact Hlog].
  - exact (lua_ExtensionWidgetClick_keeps_state sample_machine "click_ok"
             (sample_world 0 None)).
Defined.

(* --------------------------------------------------------------------- *)
(** ** GetMenuEntries: refusals, the lock, the arrays                     *)
(* --------------------------------------------------------------------- *)

Lemma LockExtension_true_unlock (s s' : ext_sync) :
  LockExtension s = Some (true, s') ->
  UnlockExtension s' = s /\ b_exiting s = false /\ running_lock s = Unlocked.
Proof.
  destruct s as [[|] [| |]]; simpl; intros H; try discriminate H.
  injection H as <-. repeat split.
Qed.

Lemma GetMenuEntries_table (M : lua_machine) (p_mgr : extensions_manager M)
  (e : extension M) (log : list lua_event) (l l' : lua_State M)
  (f : lua_value) (len : nat) (entries : list (lua_value * lua_value)) :
  IsActivated p_mgr e = true ->
  p_sync e = idle ->
  L e = Some l ->
  Z.land (i_capabilities e) EXT_HAS_MENU <> 0 ->
  lua_getglobal M l "menu" = f ->
  lua_isfunction f = true ->
  lua_pcall M l f [] = (Some (LTable len entries), l') ->
  GetMenuEntries M p_mgr {| w_ext := e; w_log := log |}
  = match walk_menu M entries len O (replicate (S len) None)
            (replicate (S len) 0) with
    | WalkDone titles ids =>
        Done (VLC_SUCCESS, menu_arrays titles ids) (after_menu e log f l')
    | WalkInvalid titles ids =>
        Done (VLC_EGENERIC, menu_arrays titles ids) (after_menu e log f l')
    | WalkAbort => Crash
    end.
Proof.
  intros Hact Hsync Hl Hcaps Hf Hfun Hcall.
  unfold GetMenuEntries.
  unfold bind at 1. unfold get_ext at 1. cbn [w_ext w_log].
  rewrite Hact. cbn [negb].
  unfold bind at 1. unfold lock_extension. unfold bind at 1.
  unfold get_ext at 1. cbn [w_ext w_log]. rewrite Hsync.
  cbn [LockExtension LockExtension_run LockExtension_step idle b_exiting
       running_lock vlc_mutex_lock set_lock].
  unfold bind at 1. unfold set_sync at 1. cbn [w_ext w_log].
  unfold ret at 1. cbn [negb].
  match goal with
  | |- context [bind (GetLuaState M) _ ?w1] =>
      rewrite (bind_Done _ _ w1 _ _ (GetLuaState_live M w1 l Hl))
  end.
  unfold bind at 1. unfold get_ext at 1.
  cbn [w_ext w_log i_capabilities].
  destruct (Z.eqb_spec (Z.land (i_capabilities e) EXT_HAS_MENU) 0)
    as [Hz|_]; [contradiction|].
  unfold getglobal, pcall.
  unfold bind, emit, get_ext, set_L, ret, unlock_extension, set_sync.
  cbn [w_ext w_log L snd fst]. rewrite Hf, Hfun. cbn [negb].
  rewrite Hcall. cbn -[walk_menu replicate].
  rewrite Hl. cbn -[walk_menu replicate].
  unfold after_menu.
  destruct (walk_menu M entries len O (replicate (S len) None)
              (replicate (S len) 0));
    cbn; rewrite <- ?app_assoc; reflexivity.
Qed.

(** Over well-formed entries the walk writes one cell of each array per
    entry, from [i_idx] on, and leaves every other cell alone. *)
Lemma walk_menu_prefix (M : lua_machine)
  (good : list (lua_value * lua_value)) :
  forall (tail : list (lua_value * lua_value)) (i_size i_idx : nat)
         (titles : list (option string)) (ids : list Z),
    Forall (menu_entry_ok M) good ->
    (i_idx + length good <= i_size)%nat ->
    (i_size < length ids)%nat ->
    (i_size < length titles)%nat ->
    exists titles' ids',
      walk_menu M (good ++ tail) i_size i_idx titles ids
      = walk_menu M tail i_size (i_idx + length good) titles' ids'
      /\ length ids' = length ids
      /\ length titles' = length titles
      /\ (forall j, (j < i_idx \/ i_idx + length good <= j)%nat ->
                    ids' !! j = ids !! j /\ titles' !! j = titles !! j)
      /\ forall j key value,
           good !! j = Some (key, value) ->
           exists id title,
             luaL_checkinteger M key = Some id
             /\ luaL_checkstring M value = Some title
             /\ ids' !! (i_idx + j)%nat = Some (Z.land id 65535)
             /\ titles' !! (i_idx + j)%nat = Some (Some title).
Proof.
  induction good as [|[key value] rest IH];
    intros tail i_size i_idx titles ids Hok Hfit Hlen Hlent.
  - exists titles, ids. simpl. rewrite Nat.add_0_r.
    repeat split; auto. intros j key value Hj. discriminate.
  - apply Forall_cons in Hok as [Hkv Hrest]. simpl in Hfit.
    destruct (menu_entry_ok_checks M key value Hkv)
      as (id & title & Hid & Ht).
    destruct Hkv as [Hk Hv]. simpl in Hk, Hv.
    change ((((key, value) :: rest) ++ tail)%list)
      with ((key, value) :: (rest ++ tail)%list).
    cbn [walk_menu].
    destruct (Nat.ltb_spec i_idx i_size) as [Hlt|]; [|lia].
    rewrite Hk, Hv, Hid, Ht. cbn [negb orb].
    destruct (IH tail i_size (S i_idx) (<[i_idx := Some title]> titles)
                (<[i_idx := to_uint16 (Z.land id 65535)]> ids))
      as (titles' & ids' & Hwalk & Hl & Hlt' & Hkeep & Hset);
      [exact Hrest | lia | rewrite length_insert; exact Hlen
      | rewrite length_insert; exact Hlent |].
    exists titles', ids'. rewrite length_insert in Hl.
    rewrite length_insert in Hlt'.
    split; [rewrite Hwalk; f_equal; simpl; lia|].
    split; [exact Hl|]. split; [exact Hlt'|]. split.
    + intros j Hj. destruct (Hkeep j) as [Hi Hti]; [simpl in Hj; lia|].
      rewrite Hi, Hti.
      split; apply list_lookup_insert_ne; simpl in Hj; lia.
    + intros [|j] key' value' Hj.
      * injection Hj as <- <-. exists id, title.
        split; [exact Hid|]. split; [exact Ht|].
        rewrite Nat.add_0_r.
        destruct (Hkeep i_idx) as [Hi Hti]; [lia|]. rewrite Hi, Hti.
        rewrite !list_lookup_insert_eq by lia.
        rewrite to_uint16_land. split; reflexivity.
      * destruct (Hset j key' value' Hj)
          as (id' & title' & Hid' & Ht' & Hids' & Htitles').
        exists id', title'. split; [exact Hid'|]. split; [exact Ht'|].
        replace (i_idx + S j)%nat with (S i_idx + j)%nat by lia.
        split; assumption.
Qed.

(** X16.  [GetMenuEntries] on an extension that is not activated, or
    whose [b_exiting] is set, returns [VLC_EGENERIC] with both arrays
    left NULL; the running lock, the interpreter and the extension are
    as before. *)
Theorem GetMenuEntries_refused :
  forall (M : lua_machine) (p_mgr : extensions_manager M) (w : world M),
    IsActivated p_mgr (w_ext w) = false
    \/ b_exiting (p_sync (w_ext w)) = true ->
    GetMenuEntries M p_mgr w = Done (VLC_EGENERIC, no_menu) w.
Proof.
  intros M p_mgr [e log] Hrefused. cbn [w_ext] in Hrefused.
  unfold GetMenuEntries.
  unfold bind at 1. unfold get_ext at 1. cbn [w_ext w_log].
  destruct (IsActivated p_mgr e); [|reflexivity].
  destruct Hrefused as [Hact | Hex]; [discriminate|]. cbn [negb].
  unfold bind at 1. unfold lock_extension. unfold bind at 1.
  unfold get_ext at 1. cbn [w_ext w_log].
  destruct e as [n t a d u v caps l [ex lk]]. cbn in Hex. subst ex.
  reflexivity.
Qed.

Lemma GetMenuEntries_refused_witness :
  GetMenuEntries sample_machine (empty_manager sample_machine)
    (sample_world EXT_HAS_MENU (Some tt))
  = Done (VLC_EGENERIC, no_menu) (sample_world EXT_HAS_MENU (Some tt)).
Proof.
  apply (GetMenuEntries_refused sample_machine
           (empty_manager sample_machine)
           (sample_world EXT_HAS_MENU (Some tt))).
  left. reflexivity.
Defined.

(** X17.  When the extension is activated, idle, has a Lua state and the
    has-menu flag, and "menu" returns a table of well-formed entries that
    is no longer than [lua_objlen] says, [GetMenuEntries] returns
    [VLC_SUCCESS] with two arrays of [lua_objlen + 1] cells: the title
    cell of each entry holds its label, every cell from the number of
    entries on is still zero (NULL title, id 0), so the arrays end with
    the sentinel; the interpreter was asked for "menu" and called once,
    and the running lock is free again. *)
Theorem GetMenuEntries_arrays :
  forall (M : lua_machine) (p_mgr : extensions_manager M) (w : world M)
         (l l' : lua_State M) (f : lua_value) (len : nat)
         (entries : list (lua_value * lua_value)),
    IsActivated p_mgr (w_ext w) = true ->
    p_sync (w_ext w) = idle ->
    L (w_ext w) = Some l ->
    Z.land (i_capabilities (w_ext w)) EXT_HAS_MENU <> 0 ->
    lua_getglobal M l "menu" = f ->
    lua_isfunction f = true ->
    lua_pcall M l f [] = (Some (LTable len entries), l') ->
    Forall (menu_entry_ok M) entries ->
    (length entries <= len)%nat ->
    exists titles ids,
      GetMenuEntries M p_mgr w
      = Done (VLC_SUCCESS, menu_arrays titles ids)
          (after_menu (w_ext w) (w_log w) f l')
      /\ length titles = S len /\ length ids = S len
      /\ (forall i key value,
            entries !! i = Some (key, value) ->
            exists title,
              luaL_checkstring M value = Some title
              /\ titles !! i = Some (Some title))
      /\ (forall j, (length entries <= j <= len)%nat ->
                    ids !! j = Some 0 /\ titles !! j = Some None).
Proof.
  intros M p_mgr [e log] l l' f len entries Hact Hsync Hl Hcaps Hf Hfun
    Hcall Hok Hlen.
  cbn [w_ext w_log] in *.
  rewrite (GetMenuEntries_table M p_mgr e log l l' f len entries
             Hact Hsync Hl Hcaps Hf Hfun Hcall).
  destruct (walk_menu_prefix M entries [] len O (replicate (S len) None)
              (replicate (S len) 0) Hok)
    as (titles & ids & Hwalk & Hli & Hlt & Hkeep & Hset);
    [simpl; lia | rewrite length_replicate; lia
    | rewrite length_replicate; lia |].
  rewrite app_nil_r in Hwalk. rewrite Hwalk. cbn [walk_menu].
  rewrite length_replicate in Hli. rewrite length_replicate in Hlt.
  exists titles, ids. split; [reflexivity|].
  split; [exact Hlt|]. split; [exact Hli|]. split.
  - intros i key value Hi.
    destruct (Hset i key value Hi) as (id & title & _ & Ht & _ & Hcell).
    exists title. split; assumption.
  - intros j Hj. destruct (Hkeep j) as [Hi Ht]; [simpl; lia|].
    rewrite Hi, Ht. split; apply lookup_replicate_2; lia.
Qed.

Lemma GetMenuEntries_arrays_witness :
  exists titles ids,
    GetMenuEntries sample_machine sample_manager
      (sample_world EXT_HAS_MENU (Some tt))
    = Done (VLC_SUCCESS, menu_arrays titles ids)
        (after_menu (w_ext (sample_world EXT_HAS_MENU (Some tt))) []
           (LFunction 1) tt)
    /\ titles !! O = Some (Some "Settings")
    /\ ids !! 1%nat = Some 0.
Proof.
  destruct (GetMenuEntries_arrays sample_machine sample_manager
              (sample_world EXT_HAS_MENU (Some tt)) tt tt (LFunction 1)
              (Z.to_nat 70000) [(LNumber 70000, LString "Settings")])
    as (titles & ids & Hrun & _ & _ & Htitles & Hzero);
    try reflexivity.
  - discriminate.
  - repeat constructor.
  - simpl. lia.
  - exists titles, ids. split; [exact Hrun|]. split.
    + destruct (Htitles O (LNumber 70000) (LString "Settings") eq_refl)
        as (title & Ht & Hcell).
      injection Ht as <-. exact Hcell.
    + apply (Hzero 1%nat). simpl. lia.
Defined.

(** X18.  An entry whose key is not a number or whose value is not a
    string stops the walk: [GetMenuEntries] returns [VLC_EGENERIC], the
    running lock is released, and the two arrays stay allocated, holding
    the entries met before the bad one (they are not freed, and the
    entries after it are not looked at). *)
Theorem GetMenuEntries_invalid_entry :
  forall (M : lua_machine) (p_mgr : extensions_manager M) (w : world M)
         (l l' : lua_State M) (f : lua_value) (len : nat)
         (good rest : list (lua_value * lua_value))
         (bad : lua_value * lua_value),
    IsActivated p_mgr (w_ext w) = true ->
    p_sync (w_ext w) = idle ->
    L (w_ext w) = Some l ->
    Z.land (i_capabilities (w_ext w)) EXT_HAS_MENU <> 0 ->
    lua_getglobal M l "menu" = f ->
    lua_isfunction f = true ->
    lua_pcall M l f [] = (Some (LTable len (good ++ bad :: rest)), l') ->
    Forall (menu_entry_ok M) good ->
    lua_isstring (snd bad) = false \/ lua_isnumber M (fst bad) = false ->
    (length good < len)%nat ->
    exists titles ids,
      GetMenuEntries M p_mgr w
      = Done (VLC_EGENERIC, menu_arrays titles ids)
          (after_menu (w_ext w) (w_log w) f l')
      /\ length titles = S len /\ length ids = S len
      /\ forall i key value,
           good !! i = Some (key, value) ->
           exists id title,
             luaL_checkinteger M key = Some id
             /\ luaL_checkstring M value = Some title
             /\ ids !! i = Some (Z.land id 65535)
             /\ titles !! i = Some (Some title).
Proof.
  intros M p_mgr [e log] l l' f len good rest [bk bv] Hact Hsync Hl
    Hcaps Hf Hfun Hcall Hok Hbad Hlen.
  cbn [w_ext w_log fst snd] in *.
  rewrite (GetMenuEntries_table M p_mgr e log l l' f len _
             Hact Hsync Hl Hcaps Hf Hfun Hcall).
  destruct (walk_menu_prefix M good ((bk, bv) :: rest) len O
              (replicate (S len) None) (replicate (S len) 0) Hok)
    as (titles & ids & Hwalk & Hli & Hlt & _ & Hset);
    [simpl; lia | rewrite length_replicate; lia
    | rewrite length_replicate; lia |].
  rewrite Hwalk. cbn [walk_menu Nat.add].
  destruct (Nat.ltb_spec (length good) len) as [_|]; [|lia].
  cbn [negb].
  assert (Hb : negb (lua_isstring bv) || negb (lua_isnumber M bk) = true)
    by (destruct Hbad as [-> | ->]; [reflexivity | apply orb_true_r]).
  rewrite Hb. rewrite length_replicate in Hli. rewrite length_replicate in Hlt.
  exists titles, ids. split; [reflexivity|].
  split; [exact Hlt|]. split; [exact Hli|]. exact Hset.
Qed.

(** X19.  A table with more entries than [lua_objlen] reports runs into
    [assert( i_idx < i_size )]: when the first [lua_objlen] entries are
    well formed and one more follows, [GetMenuEntries] aborts there
    instead of returning. *)
Theorem GetMenuEntries_longer_than_objlen :
  forall (M : lua_machine) (p_mgr : extensions_manager M) (w : world M)
         (l l' : lua_State M) (f : lua_value)
         (good rest : list (lua_value * lua_value))
         (extra : lua_value * lua_value),
    IsActivated p_mgr (w_ext w) = true ->
    p_sync (w_ext w) = idle ->
    L (w_ext w) = Some l ->
    Z.land (i_capabilities (w_ext w)) EXT_HAS_MENU <> 0 ->
    lua_getglobal M l "menu" = f ->
    lua_isfunction f = true ->
    lua_pcall M l f []
    = (Some (LTable (length good) (good ++ extra :: rest)), l') ->
    Forall (menu_entry_ok M) good ->
    GetMenuEntries M p_mgr w = Crash.
Proof.
  intros M p_mgr [e log] l l' f good rest extra Hact Hsync Hl Hcaps Hf
    Hfun Hcall Hok.
  cbn [w_ext w_log] in *.
  rewrite (GetMenuEntries_table M p_mgr e log l l' f _ _
             Hact Hsync Hl Hcaps Hf Hfun Hcall).
  destruct (walk_menu_prefix M good (extra :: rest) (length good) O
              (replicate (S (length good)) None)
              (replicate (S (length good)) 0) Hok)
    as (titles & ids & Hwalk & _);
    [simpl; lia | rewrite length_replicate; lia
    | rewrite length_replicate; lia |].
  rewrite Hwalk. destruct extra as [k v]. cbn [walk_menu Nat.add].
  rewrite Nat.ltb_irrefl. reflexivity.
Qed.

Lemma GetMenuEntries_invalid_entry_witness :
  exists titles ids,
    GetMenuEntries (menu_machine bad_value_menu)
      (menu_manager bad_value_menu) (menu_world bad_value_menu)
    = Done (VLC_EGENERIC, menu_arrays titles ids)
        (after_menu (w_ext (menu_world bad_value_menu)) [] (LFunction 1) tt)
    /\ titles !! O = Some (Some "Open").
Proof.
  destruct (GetMenuEntries_invalid_entry (menu_machine bad_value_menu)
              (menu_manager bad_value_menu) (menu_world bad_value_menu)
              tt tt (LFunction 1) 2%nat [(LNumber 1, LString "Open")] []
              (LNumber 2, LBoolean true))
    as (titles & ids & Hrun & _ & _ & Hcells); try reflexivity.
  - discriminate.
  - repeat constructor.
  - left. reflexivity.
  - simpl. lia.
  - exists titles, ids. split; [exact Hrun|].
    destruct (Hcells O (LNumber 1) (LString "Open") eq_refl)
      as (id & title & _ & Ht & _ & Hcell).
    injection Ht as <-. exact Hcell.
Defined.

Lemma GetMenuEntries_longer_than_objlen_witness :
  GetMenuEntries (menu_machine sparse_menu) (menu_manager sparse_menu)
    (menu_world sparse_menu) = Crash.
Proof.
  apply (GetMenuEntries_longer_than_objlen (menu_machine sparse_menu)
           (menu_manager sparse_menu) (menu_world sparse_menu) tt tt
           (LFunction 1) [(LNumber 1, LString "Open")] []
           (LNumber 5, LString "Close")); try reflexivity.
  - discriminate.
  - repeat constructor.
Defined.

(** X20.  Whenever [GetMenuEntries] returns, the running lock and
    [b_exiting] are as they were on entry, and so are the extension's
    name and capability flags: the lock taken by [LockExtension] is
    released on every path that returns. *)
Theorem GetMenuEntries_releases_lock :
  forall (M : lua_machine) (p_mgr : extensions_manager M) (w w' : world M)
         (r : vlc_ret * menu_out),
    GetMenuEntries M p_mgr w = Done r w' ->
    p_sync (w_ext w') = p_sync (w_ext w)
    /\ i_capabilities (w_ext w') = i_capabilities (w_ext w)
    /\ psz_name (w_ext w') = psz_name (w_ext w).
Proof.
  intros M p_mgr [e log] w' r. cbn [w_ext w_log].
  unfold GetMenuEntries.
  unfold bind at 1. unfold get_ext at 1. cbn [w_ext w_log].
  destruct (IsActivated p_mgr e); cbn [negb];
    [|intros H; injection H as <- <-; auto].
  unfold bind at 1. unfold lock_extension. unfold bind at 1.
  unfold get_ext at 1. cbn [w_ext w_log].
  pose proof (LockExtension_cases (p_sync e)) as Hcases.
  pose proof (LockExtension_true_unlock (p_sync e)) as Hunlock.
  destruct (LockExtension (p_sync e)) as [[ok s']|]; [|discriminate].
  unfold bind at 1. unfold set_sync at 1. cbn [w_ext w_log].
  unfold ret at 1.
  destruct ok; cbn [negb].
  2:{ destruct Hcases as [_ Hsame]. destruct (Hsame eq_refl) as [-> _].
      unfold ret. intros H. injection H as <- <-. auto. }
  destruct (Hunlock s' eq_refl) as (Hback & _). clear Hcases Hunlock.
  match goal with
  | |- context [bind (GetLuaState M) _ ?w1] =>
      destruct (GetLuaState_cases M w1)
        as (got & [e2 log2] & Hget & Hgot & Hname & Hc & Hsync & _);
      rewrite (bind_Done _ _ _ _ _ Hget)
  end.
  cbn [w_ext w_log L psz_name i_capabilities p_sync] in Hgot, Hname, Hc,
    Hsync.
  unfold bind at 1. unfold get_ext at 1. cbn [w_ext w_log].
  assert (Hfin : forall (a : vlc_ret * menu_out) (e3 : extension M) log3,
             p_sync e3 = s' -> i_capabilities e3 = i_capabilities e ->
             psz_name e3 = psz_name e ->
             bind (unlock_extension M) (fun _ => ret a)
               {| w_ext := e3; w_log := log3 |} = Done r w' ->
             p_sync (w_ext w') = p_sync e
             /\ i_capabilities (w_ext w') = i_capabilities e
             /\ psz_name (w_ext w') = psz_name e).
  { intros a e3 log3 H3 Hc3 Hn3. ext_unfold. cbn [w_ext w_log].
    intros H. injection H as <- <-. cbn [w_ext p_sync i_capabilities
      psz_name]. rewrite H3. auto. }
  destruct (Z.land (i_capabilities e2) EXT_HAS_MENU =? 0).
  { unfold bind at 1. unfold ret at 1. apply Hfin; assumption. }
  unfold bind at 1. unfold bind at 1. unfold getglobal.
  destruct got as [l|]; [|discriminate].
  unfold bind at 1. unfold emit at 1. unfold ret at 1.
  cbn [w_ext w_log snd fst].
  destruct (lua_isfunction (lua_getglobal M l "menu")); cbn [negb].
  2:{ unfold ret at 1. apply Hfin; assumption. }
  unfold bind at 1. unfold pcall. unfold bind at 1. unfold emit at 1.
  cbn [w_ext w_log].
  destruct (lua_pcall M l (lua_getglobal M l "menu") []) as [res l2].
  unfold bind at 1. unfold get_ext at 1. cbn [w_ext w_log].
  rewrite Hgot. unfold bind at 1. unfold set_L at 1. unfold ret at 1.
  cbn [w_ext w_log].
  destruct res as [t|]; [|unfold ret at 1; apply Hfin; assumption].
  destruct (lua_istable t); [|unfold ret at 1; apply Hfin; assumption].
  destruct (walk_menu M (lua_entries t) (lua_objlen t) O
              (replicate (S (lua_objlen t)) None)
              (replicate (S (lua_objlen t)) 0));
    [unfold ret at 1; apply Hfin; assumption
    |unfold ret at 1; apply Hfin; assumption
    |discriminate].
Qed.

Lemma GetMenuEntries_releases_lock_witness :
  p_sync (w_ext (after_menu (w_ext (menu_world bad_value_menu)) []
                   (LFunction 1) tt))
  = p_sync (w_ext (menu_world bad_value_menu)).
Proof.
  apply (GetMenuEntries_releases_lock (menu_machine bad_value_menu)
           (menu_manager bad_value_menu) (menu_world bad_value_menu)
           (after_menu (w_ext (menu_world bad_value_menu)) []
              (LFunction 1) tt)
           (VLC_EGENERIC,
            menu_arrays [Some "Open"; None; None] [1; 0; 0])).
  reflexivity.
Defined.

(* --------------------------------------------------------------------- *)
(** ** The running lock: exclusion and release                            *)
(* --------------------------------------------------------------------- *)

(** X21.  Mutual exclusion: as long as another thread holds the running
    lock and does not release it, a caller of [LockExtension] gets no
    further than [vlc_mutex_lock]: it never holds the lock and never
    returns [true], whatever else happens to the flag. *)
Theorem LockExtension_excluded_while_held :
  forall (sched : list slot) (s : ext_sync),
    running_lock s = LockedByOther ->
    Forall (fun sl => sl <> Other EnvUnlock) sched ->
    let c := run_schedule sched (enter_lock s) in
    running_lock (shared c) = LockedByOther
    /\ pc c <> LockRecheck
    /\ pc c <> LockReturned true.
Proof.
  intros sched s Hheld Hsched c.
  assert (Hinv : forall c0,
             running_lock (shared c0) = LockedByOther ->
             (pc c0 = LockEntry \/ pc c0 = LockAcquire
              \/ pc c0 = LockReturned false) ->
             let c1 := run_schedule sched c0 in
             running_lock (shared c1) = LockedByOther
             /\ (pc c1 = LockEntry \/ pc c1 = LockAcquire
                 \/ pc c1 = LockReturned false)).
  { induction Hsched as [|sl sched Hsl _ IH]; intros c0 Hl Hp;
      [split; assumption|].
    cbn [run_schedule fold_left]. apply IH.
    - destruct c0 as [p [ex lk] sn]. cbn in Hl, Hp. subst lk.
      destruct sl as [|[b| |]]; [| | |congruence];
        destruct Hp as [-> | [-> | ->]]; destruct ex; reflexivity.
    - destruct c0 as [p [ex lk] sn]. cbn in Hl, Hp. subst lk.
      destruct sl as [|[b| |]]; [| | |congruence];
        destruct Hp as [-> | [-> | ->]]; destruct ex; cbn; auto. }
  destruct (Hinv (enter_lock s) Hheld (or_introl eq_refl)) as [Hl Hp].
  fold c in Hl, Hp. split; [exact Hl|].
  destruct Hp as [-> | [-> | ->]]; split; discriminate.
Qed.

Lemma LockExtension_excluded_while_held_witness :
  running_lock
    (shared (run_schedule
               [Caller; Caller; Other (EnvSetExiting true); Caller]
               (enter_lock held_by_other))) = LockedByOther
  /\ pc (run_schedule [Caller; Caller; Other (EnvSetExiting true); Caller]
           (enter_lock held_by_other)) <> LockRecheck
  /\ pc (run_schedule [Caller; Caller; Other (EnvSetExiting true); Caller]
           (enter_lock held_by_other)) <> LockReturned true.
Proof.
  apply (LockExtension_excluded_while_held
           [Caller; Caller; Other (EnvSetExiting true); Caller]
           held_by_other).
  - reflexivity.
  - repeat constructor; discriminate.
Defined.

(** X22.  Run without interference, [LockExtension] succeeds exactly on
    an extension that is not exiting and whose lock is free, and then
    [UnlockExtension] gives back the state it started from; it stays
    blocked exactly when the extension is not exiting and the lock is
    held; and a refusal leaves everything as it was. *)
Theorem LockExtension_UnlockExtension :
  forall s : ext_sync,
    (forall s',
        LockExtension s = Some (true, s') ->
        UnlockExtension s' = s /\ running_lock s' = LockedByCaller)
    /\ ((exists s', LockExtension s = Some (true, s'))
        <-> b_exiting s = false /\ running_lock s = Unlocked)
    /\ (LockExtension s = None
        <-> b_exiting s = false /\ running_lock s <> Unlocked)
    /\ (forall s', LockExtension s = Some (false, s') ->
                   s' = s /\ b_exiting s = true).
Proof.
  intros [[|] [| |]]; cbn; repeat split; intros;
    repeat match goal with
           | H : exists _, _ |- _ => destruct H
           | H : _ /\ _ |- _ => destruct H
           end;
    simplify_eq; try reflexivity; try (eexists; reflexivity);
    try congruence.
Qed.

Lemma LockExtension_UnlockExtension_witness :
  UnlockExtension (set_lock LockedByCaller idle) = idle
  /\ running_lock (set_lock LockedByCaller idle) = LockedByCaller.
Proof.
  destruct (LockExtension_UnlockExtension idle) as [Hround _].
  apply Hround. reflexivity.
Defined.

(* --------------------------------------------------------------------- *)
(** ** ScanLuaCallback: what reaches the catalog                          *)
(* --------------------------------------------------------------------- *)

Lemma find_capability_bound (psz_cap : string) (i_cap : nat) :
  find_capability ppsz_capabilities O psz_cap = Some i_cap ->
  (i_cap < 3)%nat.
Proof.
  unfold ppsz_capabilities. cbn [find_capability].
  destruct (String.eqb "menu" psz_cap); [intros H; injection H as <-; lia|].
  destruct (String.eqb "trigger" psz_cap);
    [intros H; injection H as <-; lia|].
  destruct (String.eqb "input-listener" psz_cap);
    [intros H; injection H as <-; lia | discriminate].
Qed.

Lemma lor_flag_bound (caps : Z) (i_cap : nat) :
  0 <= caps <= 7 -> (i_cap < 3)%nat ->
  0 <= Z.lor caps (Z.shiftl 1 (Z.of_nat i_cap)) <= 7.
Proof.
  intros Hc Hi.
  assert (Hcases : caps = 0 \/ caps = 1 \/ caps = 2 \/ caps = 3
                   \/ caps = 4 \/ caps = 5 \/ caps = 6 \/ caps = 7) by lia.
  destruct i_cap as [|[|[|i]]]; [| | |lia];
    repeat (destruct Hcases as [-> | Hcases]); try subst caps;
    vm_compute; split; discriminate.
Qed.

Lemma scan_capabilities_bound (M : lua_machine)
  (entries : list (lua_value * lua_value)) :
  forall caps caps',
    0 <= caps <= 7 ->
    scan_capabilities M entries caps = Some caps' ->
    0 <= caps' <= 7.
Proof.
  induction entries as [|[key value] rest IH]; intros caps caps' Hc Hscan.
  - injection Hscan as <-. exact Hc.
  - cbn [scan_capabilities] in Hscan.
    destruct (luaL_checkstring M value) as [psz_cap|]; [|discriminate].
    destruct (find_capability ppsz_capabilities O psz_cap) as [i_cap|] eqn:E.
    + apply (IH _ _ (lor_flag_bound caps i_cap Hc
                       (find_capability_bound _ _ E)) Hscan).
    + apply (IH _ _ Hc Hscan).
Qed.

(** X23.  Whenever [ScanLuaCallback] returns, its result is the batch's
    continue value (-1, or 0 when the caller's flag is false), the
    entries already in the catalog and the activated list are untouched,
    and the catalog grew by at most one entry, put last: it is named
    after the script, has a title, no Lua state, a free lock, is not
    exiting, and its capability bits lie in the three known flags. *)
Theorem ScanLuaCallback_catalog :
  forall (M : lua_machine) (p_mgr p_mgr' : extensions_manager M)
         (psz_script : string) (l l' : lua_State M)
         (pb_continue : option bool) (i_ret : Z),
    ScanLuaCallback M p_mgr psz_script l pb_continue
    = ScanRet i_ret p_mgr' l' ->
    i_ret = continue_batch pb_continue
    /\ (i_ret = -1 \/ i_ret = 0)
    /\ activated_extensions p_mgr' = activated_extensions p_mgr
    /\ (p_mgr' = p_mgr
        \/ exists p_ext,
             extensions p_mgr' = (extensions p_mgr ++ [p_ext])%list
             /\ psz_name p_ext = psz_script
             /\ psz_title p_ext <> None
             /\ L p_ext = None
             /\ p_sync p_ext = idle
             /\ 0 <= i_capabilities p_ext <= 7).
Proof.
  intros M p_mgr p_mgr' script l l' pb i_ret.
  assert (Hcont : continue_batch pb = -1 \/ continue_batch pb = 0)
    by (destruct pb as [[|]|]; auto).
  unfold ScanLuaCallback.
  destruct (luaL_dofile M l script) as [[|] l1];
    [intros H; injection H as <- <- <-; auto|].
  destruct (lua_isfunction (lua_getglobal M l1 "descriptor")); cbn [negb];
    [|intros H; injection H as <- <- <-; auto].
  destruct (lua_pcall M l1 (lua_getglobal M l1 "descriptor") [])
    as [[t|] l2]; [|intros H; injection H as <- <- <-; auto].
  destruct (lua_istable t); [|intros H; injection H as <- <- <-; auto].
  destruct (if lua_istable (lua_getfield t "capabilities")
            then scan_capabilities M
                   (lua_entries (lua_getfield t "capabilities")) 0
            else Some 0) as [caps|] eqn:Ecaps; [|discriminate].
  intros H. injection H as <- <- <-.
  split; [reflexivity|]. split; [exact Hcont|]. split; [reflexivity|].
  right. eexists. split; [reflexivity|].
  cbn [psz_name psz_title L p_sync i_capabilities].
  split; [reflexivity|].
  split; [destruct (string_field M t "title"); discriminate|].
  split; [reflexivity|]. split; [reflexivity|].
  destruct (lua_istable (lua_getfield t "capabilities")).
  - eapply scan_capabilities_bound; [|exact Ecaps]. lia.
  - injection Ecaps as <-. lia.
Qed.

Lemma ScanLuaCallback_catalog_witness :
  exists p_ext : extension descriptor_machine,
    [sample_entry] = ([] ++ [p_ext])%list
    /\ psz_name p_ext = "sample.lua"
    /\ 0 <= i_capabilities p_ext <= 7.
Proof.
  destruct (ScanLuaCallback_catalog descriptor_machine
              (empty_manager descriptor_machine)
              {| extensions := [sample_entry]; activated_extensions := [] |}
              "sample.lua" tt tt (Some true) (-1) eq_refl)
    as (_ & _ & _ & [Hsame | (p_ext & Hext & Hname & _ & _ & _ & Hcaps)]).
  - discriminate Hsame.
  - exists p_ext. auto.
Defined.

(** X24.  A script that does not load, that has no function
    [descriptor], whose [descriptor] raises, or whose [descriptor]
    returns something that is not a table leaves the catalog exactly as
    it was, and the batch goes on as the caller's flag says. *)
Theorem ScanLuaCallback_skips_bad_script :
  forall (M : lua_machine) (p_mgr : extensions_manager M)
         (psz_script : string) (l : lua_State M)
         (pb_continue : option bool),
    let l1 := snd (luaL_dofile M l psz_script) in
    let f := lua_getglobal M l1 "descriptor" in
    fst (luaL_dofile M l psz_script) = true
    \/ lua_isfunction f = false
    \/ fst (lua_pcall M l1 f []) = None
    \/ (exists t, fst (lua_pcall M l1 f []) = Some t
                  /\ lua_istable t = false) ->
    exists l',
      ScanLuaCallback M p_mgr psz_script l pb_continue
      = ScanRet (continue_batch pb_continue) p_mgr l'.
Proof.
  intros M p_mgr script l pb l1 f Hbad. unfold ScanLuaCallback.
  subst f l1.
  destruct (luaL_dofile M l script) as [[|] l1]; cbn [fst snd] in *;
    [eexists; reflexivity|].
  destruct Hbad as [Hbad | Hbad]; [discriminate|].
  destruct (lua_isfunction (lua_getglobal M l1 "descriptor")); cbn [negb];
    [|eexists; reflexivity].
  destruct Hbad as [Hbad | Hbad]; [discriminate|].
  destruct (lua_pcall M l1 (lua_getglobal M l1 "descriptor") [])
    as [[t|] l2]; cbn [fst] in *; [|eexists; reflexivity].
  destruct Hbad as [Hbad | (t' & Ht' & Htab)]; [discriminate|].
  injection Ht' as <-. rewrite Htab. eexists; reflexivity.
Qed.

Lemma ScanLuaCallback_skips_bad_script_witness :
  exists l',
    ScanLuaCallback sample_machine (empty_manager sample_machine)
      "ext.lua" tt (Some false)
    = ScanRet (continue_batch (Some false)) (empty_manager sample_machine) l'.
Proof.
  apply (ScanLuaCallback_skips_bad_script sample_machine
           (empty_manager sample_machine) "ext.lua" tt (Some false)).
  right. left. reflexivity.
Defined.

Lemma scan_capabilities_raises (M : lua_machine)
  (entries : list (lua_value * lua_value)) :
  forall caps,
    Exists (fun kv => lua_isstring (snd kv) = false) entries ->
    scan_capabilities M entries caps = None.
Proof.
  induction entries as [|[key value] rest IH]; intros caps Hbad.
  - inversion Hbad.
  - cbn [scan_capabilities].
    destruct value as [| | n | s | |]; try reflexivity;
      (cbn [luaL_checkstring];
       apply Exists_cons in Hbad as [Hbad | Hbad];
       [discriminate Hbad|];
       destruct (find_capability ppsz_capabilities O _);
       apply IH; exact Hbad).
Qed.

(** X25.  A capability that is neither a string nor a number stops the
    scan for good: [luaL_checkstring] raises on it outside any protected
    call, so when [descriptor] returns a table whose [capabilities] table
    holds such a value, the callback does not return and no entry is
    added, whatever else the descriptor says. *)
Theorem ScanLuaCallback_capability_not_string :
  forall (M : lua_machine) (p_mgr : extensions_manager M)
         (psz_script : string) (l l1 l2 : lua_State M)
         (pb_continue : option bool) (f t : lua_value) (len : nat)
         (entries : list (lua_value * lua_value)),
    luaL_dofile M l psz_script = (false, l1) ->
    lua_getglobal M l1 "descriptor" = f ->
    lua_isfunction f = true ->
    lua_pcall M l1 f [] = (Some t, l2) ->
    lua_istable t = true ->
    lua_getfield t "capabilities" = LTable len entries ->
    Exists (fun kv => lua_isstring (snd kv) = false) entries ->
    ScanLuaCallback M p_mgr psz_script l pb_continue = ScanPanic.
Proof.
  intros M p_mgr script l l1 l2 pb f t len entries Hload Hf Hfun Hcall Ht
    Hcaps Hbad.
  unfold ScanLuaCallback. rewrite Hload, Hf, Hfun. cbn [negb].
  rewrite Hcall, Ht, Hcaps. cbn [lua_istable lua_entries].
  rewrite (scan_capabilities_raises M entries 0 Hbad). reflexivity.
Qed.

Lemma ScanLuaCallback_capability_not_string_witness :
  ScanLuaCallback odd_machine (empty_manager odd_machine) "odd.lua" tt None
  = ScanPanic.
Proof.
  apply (ScanLuaCallback_capability_not_string odd_machine
           (empty_manager odd_machine) "odd.lua" tt tt tt None (LFunction 7)
           odd_descriptor 2%nat
           [(LNumber 1, LString "menu"); (LNumber 2, LBoolean true)]);
    try reflexivity.
  right. left. reflexivity.
Defined.

(* --------------------------------------------------------------------- *)
(** ** Control                                                            *)
(* --------------------------------------------------------------------- *)

Lemma capability_bits_has_menu (names : list string) :
  Z.land (capability_bits names) EXT_HAS_MENU
  = if existsb (String.eqb "menu") names then 1 else 0.
Proof.
  induction names as [|n names IH]; [reflexivity|].
  cbn [capability_bits fold_right existsb]. fold (capability_bits names).
  rewrite Z.land_lor_distr_l, IH. unfold capability_flag.
  destruct (String.eqb "menu" n); cbn [orb].
  - destruct (existsb (String.eqb "menu") names); reflexivity.
  - destruct (String.eqb "trigger" n);
      [|destruct (String.eqb "input-listener" n)];
      destruct (existsb (String.eqb "menu") names); reflexivity.
Qed.

Lemma capability_bits_trigger_only (names : list string) :
  Z.land (capability_bits names) EXT_TRIGGER_ONLY
  = if existsb (String.eqb "trigger") names then 2 else 0.
Proof.
  induction names as [|n names IH]; [reflexivity|].
  cbn [capability_bits fold_right existsb]. fold (capability_bits names).
  rewrite Z.land_lor_distr_l, IH. unfold capability_flag.
  destruct (String.eqb_spec "menu" n) as [<-|_]; cbn [orb].
  - destruct (existsb (String.eqb "trigger") names); reflexivity.
  - destruct (String.eqb "trigger" n); cbn [orb];
      [|destruct (String.eqb "input-listener" n)];
      destruct (existsb (String.eqb "trigger") names); reflexivity.
Qed.

(** X26.  Scan, then ask: for the entry [ScanLuaCallback] makes of a
    script whose descriptor lists the capability names [names] (each
    read as a C string, up to its first NUL), the [EXTENSION_HAS_MENU]
    request answers true exactly when "menu" is among them and
    [EXTENSION_TRIGGER_ONLY] exactly when "trigger" is; both return
    [VLC_SUCCESS] and change nothing. *)
Theorem Control_flags_after_scan :
  forall (M : lua_machine) (Q : Type)
         (Activate Deactivate :
            control_state M Q -> vlc_ret * control_state M Q)
         (PushCommand : command -> Q -> vlc_ret * Q)
         (p_mgr : extensions_manager M) (psz_script : string)
         (l l1 l2 : lua_State M) (pb_continue : option bool)
         (f t : lua_value) (names : list string),
    luaL_dofile M l psz_script = (false, l1) ->
    lua_getglobal M l1 "descriptor" = f ->
    lua_isfunction f = true ->
    lua_pcall M l1 f [] = (Some t, l2) ->
    lua_istable t = true ->
    map (fun kv => luaL_checkstring M (snd kv))
      (lua_entries (lua_getfield t "capabilities")) = map Some names ->
    exists p_ext : extension M,
      ScanLuaCallback M p_mgr psz_script l pb_continue
      = ScanRet (continue_batch pb_continue)
          {| extensions := extensions p_mgr ++ [p_ext];
             activated_extensions := activated_extensions p_mgr |} l2
      /\ forall cs : control_state M Q,
           w_ext (cs_world cs) = p_ext ->
           Control M Q Activate Deactivate PushCommand EXTENSION_HAS_MENU cs
           = Done (VLC_SUCCESS,
                   BoolAnswer (existsb (String.eqb "menu") names)) cs
           /\ Control M Q Activate Deactivate PushCommand
                EXTENSION_TRIGGER_ONLY cs
              = Done (VLC_SUCCESS,
                      BoolAnswer (existsb (String.eqb "trigger") names)) cs.
Proof.
  intros M Q Act Deact Push p_mgr script l l1 l2 pb f t names Hload Hf
    Hfun Hcall Ht Hnames.
  unfold ScanLuaCallback. rewrite Hload, Hf, Hfun. cbn [negb].
  rewrite Hcall, Ht.
  assert (Hcaps :
            (if lua_istable (lua_getfield t "capabilities")
             then scan_capabilities M
                    (lua_entries (lua_getfield t "capabilities")) 0
             else Some 0) = Some (capability_bits names)).
  { destruct (lua_istable (lua_getfield t "capabilities")) eqn:Hc.
    - rewrite (scan_capabilities_bits M _ names 0 Hnames).
      rewrite Z.lor_0_l. reflexivity.
    - destruct (lua_getfield t "capabilities"); try discriminate Hc;
        destruct names; try discriminate Hnames; reflexivity. }
  rewrite Hcaps. eexists. split; [reflexivity|].
  intros cs Hcs. unfold Control. rewrite Hcs. cbn [i_capabilities].
  rewrite capability_bits_has_menu, capability_bits_trigger_only.
  split; (destruct (existsb _ names); reflexivity).
Qed.

Lemma Control_flags_after_scan_witness :
  Control descriptor_machine unit (fun cs => (VLC_SUCCESS, cs))
    (fun cs => (VLC_SUCCESS, cs)) (fun _ q => (VLC_SUCCESS, q))
    EXTENSION_TRIGGER_ONLY
    {| cs_world := {| w_ext := sample_entry; w_log := [] |};
       cs_mgr := empty_manager descriptor_machine; cs_input := None;
       cs_refs := []; cs_queue := tt |}
  = Done (VLC_SUCCESS, BoolAnswer false)
      {| cs_world := {| w_ext := sample_entry; w_log := [] |};
         cs_mgr := empty_manager descriptor_machine; cs_input := None;
         cs_refs := []; cs_queue := tt |}
  /\ Control nul_machine unit (fun cs => (VLC_SUCCESS, cs))
       (fun cs => (VLC_SUCCESS, cs)) (fun _ q => (VLC_SUCCESS, q))
       EXTENSION_HAS_MENU
       {| cs_world := {| w_ext := nul_entry; w_log := [] |};
          cs_mgr := empty_manager nul_machine; cs_input := None;
          cs_refs := []; cs_queue := tt |}
     = Done (VLC_SUCCESS, BoolAnswer true)
         {| cs_world := {| w_ext := nul_entry; w_log := [] |};
            cs_mgr := empty_manager nul_machine; cs_input := None;
            cs_refs := []; cs_queue := tt |}.
Proof.
  split.
  - destruct (Control_flags_after_scan descriptor_machine unit
                (fun cs => (VLC_SUCCESS, cs)) (fun cs => (VLC_SUCCESS, cs))
                (fun _ q => (VLC_SUCCESS, q))
                (empty_manager descriptor_machine) "sample.lua" tt tt tt
                (Some true) (LFunction 7) sample_descriptor
                ["menu"; "bogus"; "input-listener"])
      as (p_ext & Hscan & Hask);
      [reflexivity | reflexivity | reflexivity | reflexivity | reflexivity
      | reflexivity |].
    assert (Hp : p_ext = sample_entry).
    { assert (E : ScanLuaCallback descriptor_machine
                    (empty_manager descriptor_machine) "sample.lua" tt
                    (Some true)
                  = ScanRet (-1)
                      {| extensions := [sample_entry];
                         activated_extensions := [] |} tt) by reflexivity.
      rewrite E in Hscan. injection Hscan as H. exact (eq_sym H). }
    subst p_ext.
    apply (Hask {| cs_world := {| w_ext := sample_entry; w_log := [] |};
                   cs_mgr := empty_manager descriptor_machine;
                   cs_input := None; cs_refs := []; cs_queue := tt |}).
    reflexivity.
  - destruct (Control_flags_after_scan nul_machine unit
                (fun cs => (VLC_SUCCESS, cs)) (fun cs => (VLC_SUCCESS, cs))
                (fun _ q => (VLC_SUCCESS, q))
                (empty_manager nul_machine) "cut.lua" tt tt tt
                (Some true) (LFunction 7) nul_descriptor
                ["menu"; "triggers"])
      as (p_ext & Hscan & Hask);
      [reflexivity | reflexivity | reflexivity | reflexivity | reflexivity
      | reflexivity |].
    assert (Hp : p_ext = nul_entry).
    { assert (E : ScanLuaCallback nul_machine
                    (empty_manager nul_machine) "cut.lua" tt (Some true)
                  = ScanRet (-1)
                      {| extensions := [nul_entry];
                         activated_extensions := [] |} tt) by reflexivity.
      rewrite E in Hscan. injection Hscan as H. exact (eq_sym H). }
    subst p_ext.
    apply (Hask {| cs_world := {| w_ext := nul_entry; w_log := [] |};
                   cs_mgr := empty_manager nul_machine;
                   cs_input := None; cs_refs := []; cs_queue := tt |}).
    reflexivity.
Defined.

(** X27.  [EXTENSION_SET_INPUT] on an exiting extension returns
    [VLC_EGENERIC] and changes nothing: the input held stays held and no
    command is pushed.  On an idle extension it returns [VLC_SUCCESS],
    releases the input held before (if any), then holds the new one (if
    any) and keeps it, pushes [CMD_SET_INPUT] exactly when the extension
    has the input-listener flag, and leaves the running lock free and the
    interpreter untouched. *)
Theorem Control_set_input :
  forall (M : lua_machine) (Q : Type)
         (Activate Deactivate :
            control_state M Q -> vlc_ret * control_state M Q)
         (PushCommand : command -> Q -> vlc_ret * Q)
         (cs : control_state M Q) (p_input : option nat),
    let p_ext := w_ext (cs_world cs) in
    let set_input :=
      Control M Q Activate Deactivate PushCommand
        (EXTENSION_SET_INPUT p_input) cs in
    (b_exiting (p_sync p_ext) = true ->
     set_input = Done (VLC_EGENERIC, NoAnswer) cs)
    /\ (p_sync p_ext = idle ->
        exists cs',
          set_input = Done (VLC_SUCCESS, NoAnswer) cs'
          /\ cs_input cs' = p_input
          /\ cs_refs cs'
             = (cs_refs cs
                ++ match cs_input cs with
                   | Some old => [Release old]
                   | None => []
                   end
                ++ match p_input with
                   | Some input => [Hold input]
                   | None => []
                   end)%list
          /\ cs_queue cs'
             = (if Z.land (i_capabilities p_ext) EXT_INPUT_LISTENER =? 0
                then cs_queue cs
                else snd (PushCommand CMD_SET_INPUT (cs_queue cs)))
          /\ cs_world cs' = cs_world cs
          /\ cs_mgr cs' = cs_mgr cs).
Proof.
  intros M Q Act Deact Push [[e log] mgr inp refs q] p_input p_ext set_input.
  subst p_ext set_input. cbn [cs_world w_ext].
  destruct e as [n t a d u v caps l [ex lk]]. cbn [p_sync b_exiting].
  split.
  - intros ->. reflexivity.
  - intros Hidle. injection Hidle as -> ->.
    eexists. split; [reflexivity|]. cbn. auto 10.
Qed.

Lemma Control_set_input_witness :
  exists cs',
    Control sample_machine (list command) (fun cs => (VLC_SUCCESS, cs))
      (fun cs => (VLC_SUCCESS, cs))
      (fun c q => (VLC_SUCCESS, (q ++ [c])%list))
      (EXTENSION_SET_INPUT (Some 2%nat))
      {| cs_world := sample_world EXT_INPUT_LISTENER (Some tt);
         cs_mgr := sample_manager; cs_input := Some 1%nat;
         cs_refs := []; cs_queue := [] |}
    = Done (VLC_SUCCESS, NoAnswer) cs'
    /\ cs_input cs' = Some 2%nat
    /\ cs_refs cs' = [Release 1%nat; Hold 2%nat]
    /\ cs_queue cs' = [CMD_SET_INPUT].
Proof.
  destruct (Control_set_input sample_machine (list command)
              (fun cs => (VLC_SUCCESS, cs)) (fun cs => (VLC_SUCCESS, cs))
              (fun c q => (VLC_SUCCESS, (q ++ [c])%list))
              {| cs_world := sample_world EXT_INPUT_LISTENER (Some tt);
                 cs_mgr := sample_manager; cs_input := Some 1%nat;
                 cs_refs := []; cs_queue := [] |} (Some 2%nat))
    as [_ Hidle].
  destruct (Hidle eq_refl) as (cs' & Hrun & Hin & Hrefs & Hq & _).
  exists cs'. split; [exact Hrun|]. split; [exact Hin|].
  split; [exact Hrefs | exact Hq].
Defined.
